(** * find_figpack_urls.py: a shallow embedding and its verified properties

    The script is a five stage pipeline: search, collect, clone, scan,
    dedupe and write.  Each stage is embedded below as a function that
    follows the Python text of [src/find_figpack_urls.py]; effects
    (network, clock, file system, the [git] process) are threaded through
    explicit worlds. *)

From Stdlib Require Import ZArith Ascii.
From stdpp Require Import base numbers list strings sets gmap sorting.

Local Open Scope Z_scope.
Set Warnings "-clear-no-such-hyp".

(** ** Python [str]: a sequence of Unicode code points *)

Module PyStr.

Abbreviation char := N.
Abbreviation str := (list char).

(** An ASCII literal of the source as a [str]. *)
Definition of_string (s : string) : str :=
  N_of_ascii <$> String.list_ascii_of_string s.

Definition len (s : str) : Z := Z.of_nat (length s).

(** [text[i:].startswith(sub)] on the remaining text. *)
Fixpoint startswith (sub text : str) : bool :=
  match sub, text with
  | [], _ => true
  | _ :: _, [] => false
  | a :: sub', b :: text' => (a =? b)%N && startswith sub' text'
  end.

(** Leftmost match of [sub] in [text], reported with offset [off]. *)
Fixpoint find_aux (sub text : str) (off : nat) {struct text} : option nat :=
  if startswith sub text then Some off
  else match text with
       | [] => None
       | _ :: t => find_aux sub t (S off)
       end.

(** [text.find(sub, start)]: the lowest index [i >= start] with
    [text[i:i+len(sub)] == sub], or [-1].  A negative [start] counts
    from the end and is clamped at [0], as CPython adjusts it. *)
Definition find (text sub : str) (start : Z) : Z :=
  let n := len text in
  let start := if start <? 0 then Z.max 0 (start + n) else start in
  if n - start <? len sub then -1
  else match find_aux sub (drop (Z.to_nat start) text) (Z.to_nat start) with
       | Some j => Z.of_nat j
       | None => -1
       end.

(** A slice bound as CPython adjusts it. *)
Definition adjust (n i : Z) : Z :=
  if i <? 0 then Z.max 0 (i + n) else Z.min i n.

(** [text[a:b]]. *)
Definition slice (text : str) (a b : Z) : str :=
  let a' := adjust (len text) a in
  let b' := adjust (len text) b in
  take (Z.to_nat (b' - a')) (drop (Z.to_nat a') text).

End PyStr.

Import PyStr.

(** [s.replace(c, by)] for a one character pattern [c]. *)
Fixpoint replace_char (c : ascii) (by_ : string) (s : string) : string :=
  match s with
  | EmptyString => EmptyString
  | String a s' =>
      if Ascii.eqb a c then by_ +:+ replace_char c by_ s'
      else String a (replace_char c by_ s')
  end.

(** ** Scan stage *)

Definition FIGPACK_PREFIX : str := of_string "https://figures.figpack.org/".
Definition FIGPACK_SUFFIX : str := of_string "/index.html".

(** The dictionaries appended to [results]. *)
Record MatchRecord := mkRecord {
  repo : string;
  file : string;
  url : str;
}.

(** The [while True] loop of [scan_repo_for_figpack] on one file.  One unit
    of [fuel] pays for one evaluation of the loop body; [None] means the
    fuel ran out before the loop reached its [break]. *)
Fixpoint scan_while (fuel : nat) (full_name file_ : string) (text : str)
    (pos : Z) (results : list MatchRecord) : option (list MatchRecord) :=
  match fuel with
  | O => None
  | S fuel' =>
      let start_idx := find text FIGPACK_PREFIX pos in
      if start_idx =? -1 then Some results
      else
        let end_idx := find text FIGPACK_SUFFIX start_idx in
        if end_idx =? -1 then
          scan_while fuel' full_name file_ text (start_idx + 1) results
        else
          let url_ := slice text start_idx (end_idx + len FIGPACK_SUFFIX) in
          scan_while fuel' full_name file_ text (end_idx + 1)
            (results ++ [mkRecord full_name file_ url_])
  end.

(** The body of the [for md_path in ...] loop: [rel] is the path of the file
    relative to the repository, [text] what [read_text_file] returned.  An
    empty text is skipped before the loop is entered. *)
Definition scan_file (os_sep : ascii) (full_name rel : string) (text : str)
    (results : list MatchRecord) : option (list MatchRecord) :=
  match text with
  | [] => Some results
  | _ :: _ =>
      scan_while (length text) full_name (replace_char os_sep "/" rel)
        text 0 results
  end.

(** [scan_repo_for_figpack]: [files] lists what [repo_dir.rglob("*.md")]
    yields, each file with its relative path and decoded text. *)
Fixpoint scan_files (os_sep : ascii) (full_name : string)
    (files : list (string * str)) (results : list MatchRecord)
    : option (list MatchRecord) :=
  match files with
  | [] => Some results
  | (rel, text) :: files' =>
      match scan_file os_sep full_name rel text results with
      | Some results' => scan_files os_sep full_name files' results'
      | None => None
      end
  end.

Definition scan_repo_for_figpack (os_sep : ascii) (full_name : string)
    (files : list (string * str)) : option (list MatchRecord) :=
  scan_files os_sep full_name files [].

(** ** What the specification calls an occurrence

    These definitions follow the words of the specification, not the code:
    a string occurs at position [i] when the text splits around it there. *)

Definition occurs_at (sub text : str) (i : Z) : Prop :=
  ∃ a b, text = a ++ sub ++ b ∧ len a = i.

(** The next occurrence at or after the cursor [c] is at [i]. *)
Definition next_occurrence (sub text : str) (c i : Z) : Prop :=
  c ≤ i ∧ occurs_at sub text i ∧ ∀ j, c ≤ j < i → ¬ occurs_at sub text j.

(** No occurrence at or after [c]. *)
Definition no_occurrence (sub text : str) (c : Z) : Prop :=
  ∀ j, c ≤ j → ¬ occurs_at sub text j.

(** [u] is the substring of [text] from position [s] to position [t]. *)
Definition substring_of (text : str) (s t : Z) (u : str) : Prop :=
  ∃ a b, text = a ++ u ++ b ∧ len a = s ∧ len u = t - s.

(** The extraction algorithm of the specification, section 4.4, as a
    derivation: [spec_scan text c urls] says that scanning on from the cursor
    [c] emits the urls [urls], in this order. *)
Inductive spec_scan (text : str) : Z → list str → Prop :=
  | spec_stop c :
      no_occurrence FIGPACK_PREFIX text c →
      spec_scan text c []
  | spec_miss c s urls :
      next_occurrence FIGPACK_PREFIX text c s →
      no_occurrence FIGPACK_SUFFIX text s →
      spec_scan text (s + 1) urls →
      spec_scan text c urls
  | spec_hit c s e u urls :
      next_occurrence FIGPACK_PREFIX text c s →
      next_occurrence FIGPACK_SUFFIX text s e →
      substring_of text s (e + len FIGPACK_SUFFIX) u →
      spec_scan text (e + 1) urls →
      spec_scan text c (u :: urls).

(** ** Texts and tests used in the statements *)

(** The prefix and the suffix disagree at offset [d] of the prefix. *)
Definition clash (d : nat) : bool :=
  existsb (λ k,
    match FIGPACK_PREFIX !! (d + k)%nat, FIGPACK_SUFFIX !! k with
    | Some x, Some y => negb (x =? y)%N
    | _, _ => false
    end) [0; 1]%nat.

Definition overlap_text : str :=
  of_string "https://figures.figpack.org/index.html".

Definition two_prefix_text : str :=
  of_string
    "A https://figures.figpack.org/x B https://figures.figpack.org/y /index.html".

(** ** Finalization: de-duplication of exact triples *)

Definition key (rec : MatchRecord) : string * string * str :=
  (repo rec, file rec, url rec).

(** The [for rec in all_records] loop of [main], with its two accumulators
    [seen] (a Python set of key tuples) and [deduped]. *)
Fixpoint dedupe_loop (all_records : list MatchRecord)
    (seen : gset (string * string * str)) (deduped : list MatchRecord)
    : list MatchRecord :=
  match all_records with
  | [] => deduped
  | rec :: rest =>
      if decide (key rec ∈ seen) then dedupe_loop rest seen deduped
      else dedupe_loop rest ({[key rec]} ∪ seen) (deduped ++ [rec])
  end.

Definition dedupe (all_records : list MatchRecord) : list MatchRecord :=
  dedupe_loop all_records ∅ [].

(** What the loop appends to [deduped], as a function of [seen]. *)
Fixpoint fresh (seen : gset (string * string * str))
    (l : list MatchRecord) : list MatchRecord :=
  match l with
  | [] => []
  | rec :: rest =>
      if decide (key rec ∈ seen) then fresh seen rest
      else rec :: fresh ({[key rec]} ∪ seen) rest
  end.


(** ** Python [int(s)] on a header value

    A header value is a [str] of code points below 256 ([http.client]
    decodes header lines as ISO-8859-1), so a [string] holds it, character
    for code point.  The behaviour is that of CPython 3.11. *)

Module PyInt.

(** What [int] skips before and after the literal: the ASCII white space,
    which is tab to carriage return and the space, and the white space of
    Unicode that is not ASCII, of which U+0085 and U+00A0 lie below 256.
    The separators U+001C to U+001F, which [str.strip] removes, are not
    skipped. *)
Definition is_space (c : ascii) : bool :=
  let n := nat_of_ascii c in
  ((9 <=? n) && (n <=? 13) || (n =? 32) || (n =? 133) || (n =? 160))%nat.

Definition is_digit (c : ascii) : bool :=
  let n := nat_of_ascii c in ((48 <=? n) && (n <=? 57))%nat.

Definition digit (c : ascii) : Z := Z.of_nat (nat_of_ascii c) - 48.

Fixpoint lstrip (s : list ascii) : list ascii :=
  match s with
  | c :: s' => if is_space c then lstrip s' else s
  | [] => []
  end.

Definition strip (s : list ascii) : list ascii :=
  reverse (lstrip (reverse (lstrip s))).

(** The most decimal digits a conversion between [int] and [str] accepts
    ([sys.int_info.default_max_str_digits]). *)
Definition MAX_STR_DIGITS : Z := 4300.

(** Decimal digits, with single underscores allowed between digits; [seen]
    counts the digits read, zeros in front included, and more than
    [MAX_STR_DIGITS] of them are refused. *)
Fixpoint digits (acc seen : Z) (after_digit : bool) (s : list ascii)
    : option Z :=
  match s with
  | [] => if after_digit && (seen <=? MAX_STR_DIGITS) then Some acc else None
  | c :: s' =>
      if is_digit c then digits (10 * acc + digit c) (seen + 1) true s'
      else if Ascii.eqb c "_" then
        if after_digit then digits acc seen false s' else None
      else None
  end.

(** [int(s)] in base ten: [None] stands for [ValueError]. *)
Definition int (s : string) : option Z :=
  match strip (String.list_ascii_of_string s) with
  | c :: s' =>
      if Ascii.eqb c "-" then Z.opp <$> digits 0 0 false s'
      else if Ascii.eqb c "+" then digits 0 0 false s'
      else digits 0 0 false (c :: s')
  | [] => None
  end.

(** The least number whose decimal form has more than [MAX_STR_DIGITS]
    digits. *)
Definition STR_BOUND : Z := 10 ^ MAX_STR_DIGITS.

(** [str(n)] raises [ValueError] exactly when this test fails. *)
Definition printable (n : Z) : bool := Z.abs n <? STR_BOUND.

End PyInt.

(** ** Query stage *)

(** A search hit: of an item of the response only
    [it.get("repository", {}).get("full_name")] is ever read. *)
Record SearchHit := mkHit { full_name_of : option string }.

(** What [requests.get] returns: the status, the headers (keyed by their
    canonical names; [requests] compares header names without case), and,
    for a body that is a JSON object, [data.get("items")]. *)
Record Response := mkResponse {
  status_code : Z;
  headers : gmap string string;
  json_items : option (list SearchHit);
}.

Inductive Event :=
  | Get (page : Z)
  | Sleep (secs : Z).

Global Instance Event_eq_dec : EqDecision Event.
Proof. solve_decision. Defined.

(** The world of the query stage: the clock, in whole seconds as
    [int(time.time())] reads it; the monotonic clock, in nanoseconds, against
    which [time.sleep] sets its deadline; and what the stage did so far. *)
Record World := mkWorld {
  now : Z;
  monotonic : Z;
  trace : list Event;
}.

(** The search endpoint: its answer to a request for [page], given how many
    times that page was requested before.  No request is repeated with the
    same two numbers, so every run is the run against some such table. *)
Definition Server := Z → nat → Response.

Inductive Exn := ValueError | OverflowError | OSError.

Inductive Result (A : Type) :=
  | Ok (a : A)
  | Raise (e : Exn).
Arguments Ok {A} a.
Arguments Raise {A} e.

(** Computations that read and change the world and may raise. *)
Definition M (A : Type) : Type := World → Result A * World.

Global Instance M_ret : MRet M := λ A a w, (Ok a, w).
Global Instance M_bind : MBind M := λ A B k m w,
  match m w with
  | (Ok a, w') => k a w'
  | (Raise e, w') => (Raise e, w')
  end.

Definition raise {A} (e : Exn) : M A := λ w, (Raise e, w).

Definition attempts (tr : list Event) (page : Z) : nat :=
  length (filter (λ ev, ev = Get page) tr).

Definition requests_get (server : Server) (page : Z) : M Response := λ w,
  (Ok (server page (attempts (trace w) page)),
   mkWorld (now w) (monotonic w) (trace w ++ [Get page])).

Definition time_time : M Z := λ w, (Ok (now w), w).

(** [time.sleep(secs)] on an [int], as CPython 3.11 runs it on Linux.  The
    seconds become a timeout in nanoseconds held in 64 bits, which raises
    [OverflowError] beyond 9223372036 seconds either way; a negative timeout
    raises [ValueError]; the deadline is the monotonic clock plus the
    timeout, and when that sum passes [2^63 - 1] it wraps to a negative
    deadline, which [clock_nanosleep] refuses, raising [OSError].  A sleep
    that is served moves both clocks on by its length. *)
Definition time_sleep (secs : Z) : M () := λ w,
  if bool_decide (secs < -9223372036 ∨ 9223372036 < secs) then
    (Raise OverflowError, w)
  else
    let timeout := secs * 1000000000 in
    if bool_decide (timeout < 0) then (Raise ValueError, w)
    else if bool_decide (9223372036854775807 < monotonic w + timeout) then
      (Raise OSError, w)
    else
      (Ok (), mkWorld (now w + secs) (monotonic w + timeout)
                (trace w ++ [Sleep secs])).

(** The f-string [f"{n}"] of a progress line: [str(n)] raises [ValueError]
    on a number of more than [MAX_STR_DIGITS] digits.  Of the progress lines
    only the one of [handle_rate_limit] is kept, since it formats a number
    computed from a header; the lines of [search_code] format page numbers,
    item counts and status codes. *)
Definition format_int (n : Z) : M () :=
  if PyInt.printable n then mret () else raise ValueError.

(** Truth value of [headers.get(name)]: neither [None] nor the empty string. *)
Definition truthy (v : option string) : bool :=
  match v with
  | Some s => negb (String.eqb s "")
  | None => false
  end.

Definition handle_rate_limit (resp : Response) : M () :=
  if bool_decide (status_code resp ≠ 403) then mret ()
  else
    let remaining := headers resp !! "X-RateLimit-Remaining" in
    let reset := headers resp !! "X-RateLimit-Reset" in
    if bool_decide (remaining = Some "0") && truthy reset then
      reset_ts ← from_option mret (raise ValueError) (reset ≫= PyInt.int);
      t ← time_time;
      let wait_s := Z.max 0 (reset_ts - t) + 1 in
      format_int wait_s ;;
      time_sleep wait_s
    else mret ().

(** [range(a, b)]. *)
Definition py_range (a b : Z) : list Z :=
  (λ i : nat, a + Z.of_nat i) <$> seq 0 (Z.to_nat (b - a)).

(** The [for page in range(1, max_pages + 1)] loop of [search_code]; a
    [break] returns the accumulator. *)
Fixpoint search_pages (server : Server) (pages : list Z) (per_page : Z)
    (all_items : list SearchHit) : M (list SearchHit) :=
  match pages with
  | [] => mret all_items
  | page :: rest =>
      resp ← requests_get server page;
      resp ← (if status_code resp =? 403 then
                handle_rate_limit resp ;; requests_get server page
              else mret resp);
      if negb (status_code resp =? 200) then mret all_items
      else
        let items := default [] (json_items resp) in
        match items with
        | [] => mret all_items
        | _ :: _ =>
            let all_items := all_items ++ items in
            if Z.of_nat (length items) <? per_page then mret all_items
            else search_pages server rest per_page all_items
        end
  end.

Definition search_code (server : Server) (max_pages per_page : Z)
    : M (list SearchHit) :=
  search_pages server (py_range 1 (max_pages + 1)) per_page [].

(** ** The query stage: its loop body in halves, and the specification's words *)

(** The pages asked for by the events of a trace, in order. *)
Definition requested (tr : list Event) : list Z :=
  omap (λ ev, match ev with Get page => Some page | Sleep _ => None end) tr.

(** The test [remaining == "0" and reset] of [handle_rate_limit]. *)
Definition rate_limited (resp : Response) : bool :=
  bool_decide (headers resp !! "X-RateLimit-Remaining" = Some "0")
  && truthy (headers resp !! "X-RateLimit-Reset").

(** The reset timestamp of a response, when [int] accepts the header. *)
Definition reset_ts (resp : Response) : option Z :=
  headers resp !! "X-RateLimit-Reset" ≫= PyInt.int.

(** The sleeps that [time.sleep] serves in a world: of a length that fits
    the timeout, and with a deadline within the monotonic clock's range. *)
Definition sleepable (w : World) (secs : Z) : Prop :=
  0 ≤ secs ≤ 9223372036 ∧
  monotonic w + secs * 1000000000 ≤ 9223372036854775807.

Global Instance sleepable_dec w secs : Decision (sleepable w secs).
Proof. unfold sleepable. apply _. Defined.

(** The world after a request for [page]. *)
Definition asked (w : World) (page : Z) : World :=
  mkWorld (now w) (monotonic w) (trace w ++ [Get page]).

(** The world after a sleep of [secs] seconds. *)
Definition asleep (w : World) (secs : Z) : World :=
  mkWorld (now w + secs) (monotonic w + secs * 1000000000)
    (trace w ++ [Sleep secs]).

(** The handler returns on this response in this world: its header test
    fails, or [int] accepts the reset header and the wait is one that
    [time.sleep] serves. *)
Definition handler_returns (resp : Response) (w : World) : Prop :=
  rate_limited resp = false ∨
  ∃ ts, reset_ts resp = Some ts ∧ sleepable w (Z.max 0 (ts - now w) + 1).

(** The first two statements of the loop body of [search_code]: the request
    and, on a 403, the handler and the second request. *)
Definition fetch_page (server : Server) (page : Z) : M Response :=
  resp ← requests_get server page;
  if status_code resp =? 403 then
    handle_rate_limit resp ;; requests_get server page
  else mret resp.

(** The rest of the loop body, from the test of the status on. *)
Definition after_fetch (server : Server) (rest : list Z) (per_page : Z)
    (all_items : list SearchHit) (resp : Response) : M (list SearchHit) :=
  if negb (status_code resp =? 200) then mret all_items
  else
    let items := default [] (json_items resp) in
    match items with
    | [] => mret all_items
    | _ :: _ =>
        let all_items := all_items ++ items in
        if Z.of_nat (length items) <? per_page then mret all_items
        else search_pages server rest per_page all_items
    end.

(** The response that counts for a page in a fresh run: the answer to the
    retry when the first answer was a 403, the first answer otherwise. *)
Definition post_retry (server : Server) (page : Z) : Response :=
  let first := server page 0%nat in
  if status_code first =? 403 then server page 1%nat else first.

(** The result of section 4.1 over the post-retry responses of the pages, in
    page order: stop at the first response that is not a 200, keeping what
    was gathered; else stop at an empty item list; else take the items and
    stop when they are fewer than [per_page]. *)
Fixpoint spec_collect (per_page : Z) (resps : list Response)
    : list SearchHit :=
  match resps with
  | [] => []
  | resp :: rest =>
      if bool_decide (status_code resp ≠ 200) then []
      else
        let items := default [] (json_items resp) in
        if bool_decide (length items = 0%nat) then []
        else if bool_decide (Z.of_nat (length items) < per_page) then items
        else items ++ spec_collect per_page rest
  end.

(** *** Servers used as concrete inputs *)

Definition rate_headers (remaining reset : string) : gmap string string :=
  {[ "X-RateLimit-Remaining" := remaining; "X-RateLimit-Reset" := reset ]}.

Definition hit (name : string) : SearchHit := mkHit (Some name).



(** A 403 whose reset header is not a number. *)
Definition server_bad_reset : Server := λ _ _,
  mkResponse 403 (rate_headers "0" "soon") None.

(** Page 1: a full page of two hits; page 2 on: a 403 whose reset header is
    not a number. *)
Definition server_bad_reset_later : Server := λ page _,
  if page =? 1 then mkResponse 200 ∅ (Some [hit "a/b"; hit "c/d"])
  else mkResponse 403 (rate_headers "0" "soon") None.

(** A 403 whose reset time lies some three thousand years ahead. *)
Definition server_far_reset : Server := λ _ _,
  mkResponse 403 (rate_headers "0" "99999999999") None.

(** Page 1: a full page of two hits; page 2 on: a 403 with that reset
    time. *)
Definition server_far_reset_later : Server := λ page _,
  if page =? 1 then mkResponse 200 ∅ (Some [hit "a/b"; hit "c/d"])
  else mkResponse 403 (rate_headers "0" "99999999999") None.

(** ** Aggregation stage *)

(** Python's order on [str]: lexicographic by code point. *)
Definition str_le (a b : string) : Prop := String.leb a b = true.

Global Instance str_le_dec : RelDecision str_le.
Proof. intros a b. unfold str_le. apply _. Defined.

(** The set built by the loop of [collect_unique_repos]: hits without a
    repository name, or with an empty one, add nothing. *)
Fixpoint unique_repos (items : list SearchHit) (repos : gset string)
    : gset string :=
  match items with
  | [] => repos
  | it :: items' =>
      match full_name_of it with
      | Some full_name =>
          if truthy (Some full_name)
          then unique_repos items' ({[full_name]} ∪ repos)
          else unique_repos items' repos
      | None => unique_repos items' repos
      end
  end.

Definition collect_unique_repos (items : list SearchHit) : list string :=
  merge_sort str_le (elements (unique_repos items ∅)).

(** ** Acquisition stage *)

Definition GITHUB_WEB_CLONE_URL (full_name : string) : string :=
  "https://github.com/" +:+ full_name +:+ ".git".

(** [dir / name] for a name that is a single path component. *)
Definition path_join (dir name : string) : string := dir +:+ "/" +:+ name.

(** The directories that exist, and the [git clone] commands run so far,
    each with its url and its target. *)
Record Disk := mkDisk {
  paths : gset string;
  git_calls : list (string * string);
}.

(** Whether [git clone url target] succeeds.  A clone that succeeds leaves
    the target directory; one that fails leaves nothing behind. *)
Definition Git := string → string → bool.

Definition clone_repo (git : Git) (full_name workdir : string) (d : Disk)
    : (string * string * bool) * Disk :=
  let target := path_join workdir (replace_char "/" "__" full_name) in
  if decide (target ∈ paths d) then ((full_name, target, true), d)
  else
    let url := GITHUB_WEB_CLONE_URL full_name in
    let d := mkDisk ({[workdir]} ∪ paths d) (git_calls d) in
    let d := mkDisk (paths d) (git_calls d ++ [(url, target)]) in
    if git url target then
      ((full_name, target, true), mkDisk ({[target]} ∪ paths d) (git_calls d))
    else ((full_name, target, false), d).

(** [d[k] = v] on a Python dict, kept in insertion order. *)
Fixpoint dict_set (k v : string) (d : list (string * string))
    : list (string * string) :=
  match d with
  | [] => [(k, v)]
  | (k', v') :: d' =>
      if decide (k' = k) then (k, v) :: d' else (k', v') :: dict_set k v d'
  end.

(** Step 3 of [main]: the clones run one after the other, in the order in
    which the pool completes them, and each one that succeeded is entered in
    [clone_results]. *)
Fixpoint acquire (git : Git) (workdir : string) (repos : list string)
    (clone_results : list (string * string)) (d : Disk)
    : list (string * string) * Disk :=
  match repos with
  | [] => (clone_results, d)
  | full_name :: rest =>
      let '((full_name, repo_dir, ok), d') :=
        clone_repo git full_name workdir d in
      acquire git workdir rest
        (if ok then dict_set full_name repo_dir clone_results
         else clone_results) d'
  end.

(** ** The pipeline *)








(** The directory a repository is cloned into. *)
Definition target_of (workdir full_name : string) : string :=
  path_join workdir (replace_char "/" "__" full_name).

(** *** Environments used as concrete inputs *)





(** ** Notions used in the further properties of the scan *)

(** The suffix, from its offset [d] on, disagrees with the start of the
    prefix. *)
Definition clash_after (d : nat) : bool :=
  existsb (λ k,
    match FIGPACK_SUFFIX !! (d + k)%nat, FIGPACK_PREFIX !! k with
    | Some x, Some y => negb (x =? y)%N
    | _, _ => false
    end) [0; 2]%nat.

(** Spans [(s, e)] of a text, none starting before [c]: each from a prefix
    occurrence [s] to the nearest suffix occurrence [e] at or after it, and
    each starting after the end of the one before. *)
Fixpoint disjoint_spans (text : str) (c : Z) (spans : list (Z * Z)) : Prop :=
  match spans with
  | [] => True
  | (s, e) :: rest =>
      c ≤ s ∧ occurs_at FIGPACK_PREFIX text s ∧
      next_occurrence FIGPACK_SUFFIX text s e ∧
      disjoint_spans text (e + len FIGPACK_SUFFIX) rest
  end.

(** The url of a span. *)
Definition span_url (text : str) (span : Z * Z) : str :=
  slice text span.1 (span.2 + len FIGPACK_SUFFIX).

(** The characters of a string. *)
Definition chars (s : string) : list ascii := String.list_ascii_of_string s.

(** ** Notions used in the further properties of the later stages *)

(** The keys of a list of records, as the set [seen] holds them. *)
Definition keys_of (l : list MatchRecord) : gset (string * string * str) :=
  list_to_set (key <$> l).

(** An identifier [owner/name] as the code host issues them: an owner
    without "/" and "_", a name without "/". *)
Definition hosted_name (owner name : string) : Prop :=
  ("/"%char ∉ chars owner) ∧ ("_"%char ∉ chars owner) ∧
  ("/"%char ∉ chars name).

(** The requests a loop over [pages] can make: page after page, each asked
    for once or twice, up to the page at which the loop stops. *)
Inductive request_shape : list Z → list Z → Prop :=
  | shape_stop pages : request_shape pages []
  | shape_once page rest reqs :
      request_shape rest reqs → request_shape (page :: rest) (page :: reqs)
  | shape_twice page rest reqs :
      request_shape rest reqs →
      request_shape (page :: rest) (page :: page :: reqs).

(** The seconds slept by the events of a trace, in order. *)
Definition slept (tr : list Event) : list Z :=
  omap (λ ev, match ev with Sleep secs => Some secs | Get _ => None end) tr.

(** ** Reading a Markdown file *)

Module Decode.

(** The number of a byte. *)
Definition code (b : Byte.byte) : N := Byte.to_N b.

(** [bytes.decode("latin-1")]: every byte is the code point of its number;
    no byte is invalid. *)
Definition latin1 (bytes : list Byte.byte) : str := code <$> bytes.

Definition is_cont (b : N) : bool := ((128 <=? b) && (b <=? 191))%N.

(** The second byte allowed after the lead [b0] of a three byte sequence:
    no overlong form after E0, no surrogate after ED. *)
Definition second_of_3 (b0 b1 : N) : bool :=
  (if b0 =? 224 then (160 <=? b1) && (b1 <=? 191)
   else if b0 =? 237 then (128 <=? b1) && (b1 <=? 159)
   else is_cont b1)%N.

(** The second byte allowed after the lead [b0] of a four byte sequence:
    no overlong form after F0, nothing above U+10FFFF after F4. *)
Definition second_of_4 (b0 b1 : N) : bool :=
  (if b0 =? 240 then (144 <=? b1) && (b1 <=? 191)
   else if b0 =? 244 then (128 <=? b1) && (b1 <=? 143)
   else is_cont b1)%N.

(** [bytes.decode("utf-8", errors="strict")] on the numbers of the bytes:
    [None] stands for [UnicodeDecodeError]. *)
Fixpoint utf8 (bytes : list N) : option str :=
  match bytes with
  | [] => Some []
  | b0 :: rest =>
      if (b0 <? 128)%N then cons b0 <$> utf8 rest
      else if ((194 <=? b0) && (b0 <=? 223))%N then
        match rest with
        | b1 :: rest1 =>
            if is_cont b1
            then cons ((b0 - 192) * 64 + (b1 - 128))%N <$> utf8 rest1
            else None
        | _ => None
        end
      else if ((224 <=? b0) && (b0 <=? 239))%N then
        match rest with
        | b1 :: b2 :: rest2 =>
            if second_of_3 b0 b1 && is_cont b2
            then cons ((b0 - 224) * 4096 + (b1 - 128) * 64 + (b2 - 128))%N
                   <$> utf8 rest2
            else None
        | _ => None
        end
      else if ((240 <=? b0) && (b0 <=? 244))%N then
        match rest with
        | b1 :: b2 :: b3 :: rest3 =>
            if second_of_4 b0 b1 && is_cont b2 && is_cont b3
            then cons ((b0 - 240) * 262144 + (b1 - 128) * 4096
                       + (b2 - 128) * 64 + (b3 - 128))%N
                   <$> utf8 rest3
            else None
        | _ => None
        end
      else None
  end.

(** What reading in text mode does to line ends: "\r\n" and a lone "\r"
    become "\n". *)
Fixpoint universal_newlines (text : str) : str :=
  match text with
  | [] => []
  | c :: rest =>
      if (c =? 13)%N then
        10%N :: match rest with
                | c' :: rest' =>
                    if (c' =? 10)%N then universal_newlines rest'
                    else universal_newlines rest
                | [] => []
                end
      else c :: universal_newlines rest
  end.

End Decode.

(** [read_text_file]: [content] is what the file holds, [None] when it
    cannot be read.  The first [read_text] decodes as UTF-8 and raises on a
    byte sequence that is not UTF-8; the second decodes as latin-1; when
    that raises too (the file cannot be read) the result is the empty
    string. *)
Definition read_text_file (content : option (list Byte.byte)) : str :=
  match content with
  | None => []
  | Some bytes =>
      match Decode.utf8 (Decode.code <$> bytes) with
      | Some text => Decode.universal_newlines text
      | None => Decode.universal_newlines (Decode.latin1 bytes)
      end
  end.

(** * Properties *)

(** ** Facts about [find] and [slice] *)

Section FindFacts.

Implicit Types sub text : str.

Lemma startswith_prefix sub text :
  startswith sub text = true ↔ sub `prefix_of` text.
Proof.
  revert text. induction sub as [|a sub IH]; intros text; simpl.
  - split; [intros _; apply prefix_nil | done].
  - destruct text as [|b text].
    + split; [done | intros [k Hk]; discriminate].
    + rewrite andb_true_iff, N.eqb_eq, IH. split.
      * intros [-> Hp]. by apply prefix_cons.
      * intros [k Hk]. simplify_eq/=. split; [done | by exists k].
Qed.

Lemma occurs_at_drop sub text i :
  occurs_at sub text i ↔
  0 ≤ i ≤ len text ∧ sub `prefix_of` drop (Z.to_nat i) text.
Proof.
  unfold occurs_at, len. split.
  - intros (a & b & -> & <-). rewrite Nat2Z.id, drop_app_length.
    rewrite !length_app. split; [lia | by exists b].
  - intros [Hi [k Hk]]. exists (take (Z.to_nat i) text), k.
    rewrite <- Hk, take_drop, length_take. split; [done | lia].
Qed.

Lemma find_aux_Some sub text off j :
  find_aux sub text off = Some j →
  ∃ k, j = (off + k)%nat ∧ (k ≤ length text)%nat ∧
       sub `prefix_of` drop k text ∧
       ∀ k', (k' < k)%nat → ¬ sub `prefix_of` drop k' text.
Proof.
  revert off. induction text as [|b text IH]; intros off; cbn [find_aux].
  - destruct (startswith sub []) eqn:E; [|done]. intros [= <-].
    exists 0%nat. apply startswith_prefix in E.
    split_and!; [lia | done | done | lia].
  - destruct (startswith sub (b :: text)) eqn:E.
    + intros [= <-]. exists 0%nat. apply startswith_prefix in E.
      split_and!; [lia | simpl; lia | done | lia].
    + intros (k & -> & Hk & Hp & Hmin)%IH. exists (S k).
      split_and!; [lia | simpl; lia | done |].
      intros [|k'] Hlt; simpl.
      * rewrite <- startswith_prefix. by rewrite E.
      * apply Hmin. lia.
Qed.

Lemma find_aux_None sub text off :
  find_aux sub text off = None →
  ∀ k, (k ≤ length text)%nat → ¬ sub `prefix_of` drop k text.
Proof.
  revert off. induction text as [|b text IH]; intros off; cbn [find_aux].
  - destruct (startswith sub []) eqn:E; [done|]. intros _ k Hk.
    replace k with 0%nat by (simpl in Hk; lia). simpl.
    rewrite <- startswith_prefix. by rewrite E.
  - destruct (startswith sub (b :: text)) eqn:E; [done|].
    intros Hn [|k] Hk; simpl.
    + rewrite <- startswith_prefix. by rewrite E.
    + eapply IH; [done | simpl in Hk; lia].
Qed.

(** [find] returns the next occurrence at or after a non-negative
    cursor, or [-1] exactly when there is none. *)
Lemma find_spec text sub c :
  0 ≤ c →
  (find text sub c = -1 ∧ no_occurrence sub text c) ∨
  (find text sub c ≠ -1 ∧ next_occurrence sub text c (find text sub c)).
Proof.
  intros Hc. unfold find.
  destruct (Z.ltb_spec c 0) as [?|_]; [lia|].
  destruct (Z.ltb_spec (len text - c) (len sub)) as [Hshort|Hfit].
  - left. split; [done|]. intros j Hj (a & b & -> & <-).
    unfold len in *. rewrite !length_app in Hshort. lia.
  - assert (Hcn : (Z.to_nat c ≤ length text)%nat).
    { unfold len in Hfit. lia. }
    destruct (find_aux sub (drop (Z.to_nat c) text) (Z.to_nat c)) as [j|] eqn:E.
    + right. apply find_aux_Some in E as (k & -> & Hk & Hp & Hmin).
      rewrite length_drop in Hk. rewrite drop_drop in Hp.
      split; [lia|]. split; [lia|]. split.
      * apply occurs_at_drop. rewrite Nat2Z.id. unfold len. split; [lia | done].
      * intros j Hj [_ Hpj]%occurs_at_drop.
        apply (Hmin (Z.to_nat j - Z.to_nat c)%nat); [lia|].
        rewrite drop_drop. by replace (Z.to_nat c + (Z.to_nat j - Z.to_nat c))%nat
          with (Z.to_nat j) by lia.
    + left. split; [done|]. intros j Hj [Hjn Hpj]%occurs_at_drop.
      apply (find_aux_None _ _ _ E (Z.to_nat j - Z.to_nat c)%nat).
      * rewrite length_drop. unfold len in Hjn. lia.
      * rewrite drop_drop. by replace (Z.to_nat c + (Z.to_nat j - Z.to_nat c))%nat
          with (Z.to_nat j) by lia.
Qed.

Lemma next_occurrence_unique sub text c i j :
  next_occurrence sub text c i → next_occurrence sub text c j → i = j.
Proof.
  intros (Hi & Oi & Mi) (Hj & Oj & Mj).
  destruct (Z.lt_trichotomy i j) as [?|[?|?]]; [|done|].
  - destruct (Mj i); [lia | done].
  - destruct (Mi j); [lia | done].
Qed.

Lemma next_no_occurrence sub text c i :
  next_occurrence sub text c i → no_occurrence sub text c → False.
Proof. intros (Hi & Oi & _) Hn. by apply (Hn i). Qed.

Lemma occurs_at_bounds sub text i :
  occurs_at sub text i → 0 ≤ i ∧ i + len sub ≤ len text.
Proof.
  intros (a & b & -> & <-). unfold len. rewrite !length_app. lia.
Qed.

(** On bounds in range, [slice] is the substring between them. *)
Lemma slice_substring text s t :
  0 ≤ s ≤ t → t ≤ len text → substring_of text s t (slice text s t).
Proof.
  intros Hs Ht. unfold slice, adjust.
  destruct (Z.ltb_spec s 0) as [?|_]; [lia|].
  destruct (Z.ltb_spec t 0) as [?|_]; [lia|].
  rewrite !Z.min_l by lia.
  exists (take (Z.to_nat s) text), (drop (Z.to_nat (t - s)) (drop (Z.to_nat s) text)).
  unfold len in *. rewrite !take_drop, !length_take, length_drop.
  split_and!; [done | lia | lia].
Qed.

Lemma substring_of_unique text s t u v :
  substring_of text s t u → substring_of text s t v → u = v.
Proof.
  intros (a & b & -> & Ha & Hu) (a' & b' & E & Ha' & Hv).
  unfold len in *.
  assert (a = a') as <-.
  { apply (f_equal (take (length a))) in E.
    rewrite take_app_length in E. rewrite E.
    replace (length a) with (length a') by lia. by rewrite take_app_length. }
  apply app_inv_head in E.
  apply (f_equal (take (length u))) in E.
  rewrite take_app_length in E. rewrite E.
  replace (length u) with (length v) by lia. by rewrite take_app_length.
Qed.

End FindFacts.

(** ** The scan loop against the specification's algorithm *)

Lemma len_prefix : len FIGPACK_PREFIX = 28.
Proof. reflexivity. Qed.

Lemma len_suffix : len FIGPACK_SUFFIX = 11.
Proof. reflexivity. Qed.

Section ScanLoop.

Variables (full_name file_ : string) (text : str).

Local Abbreviation record_of := (mkRecord full_name file_).

(** Enough fuel: the loop returns, and what it appends is derivable in
    the specification's algorithm from the same cursor. *)
Lemma scan_while_spec fuel pos results :
  0 ≤ pos → (1 ≤ fuel)%nat → len text - 26 - pos ≤ Z.of_nat fuel →
  ∃ urls,
    scan_while fuel full_name file_ text pos results
      = Some (results ++ (record_of <$> urls)) ∧
    spec_scan text pos urls.
Proof.
  revert pos results.
  induction fuel as [|fuel IH]; intros pos results Hpos Hfuel Hbound; [lia|].
  cbn [scan_while].
  destruct (find_spec text FIGPACK_PREFIX pos Hpos) as [[-> Hnone]|[Hs Hnext]].
  { exists []. simpl. rewrite app_nil_r. split; [done | by constructor]. }
  set (s := find text FIGPACK_PREFIX pos) in *.
  destruct (Z.eqb_spec s (-1)) as [?|_]; [done|].
  pose proof Hnext as (Hps & [Hs0 Hsn]%occurs_at_bounds & _).
  rewrite len_prefix in Hsn.
  destruct (find_spec text FIGPACK_SUFFIX s Hs0) as [[-> Hnone]|[He Hnexte]].
  { simpl.
    destruct (IH (s + 1) results) as (urls & -> & Hspec); [lia..|].
    exists urls. split; [done | by eapply spec_miss]. }
  set (e := find text FIGPACK_SUFFIX s) in *.
  destruct (Z.eqb_spec e (-1)) as [?|_]; [done|].
  pose proof Hnexte as (Hse & [_ Hen]%occurs_at_bounds & _).
  destruct (IH (e + 1)
              (results ++ [record_of (slice text s (e + len FIGPACK_SUFFIX))]))
    as (urls & -> & Hspec); [lia..|].
  exists (slice text s (e + len FIGPACK_SUFFIX) :: urls). split.
  - by rewrite <- app_assoc.
  - eapply spec_hit; [done.. | | done].
    apply slice_substring; [|done]. rewrite len_suffix. lia.
Qed.

(** The specification's algorithm determines its output. *)
Lemma spec_scan_det c urls urls' :
  spec_scan text c urls → spec_scan text c urls' → urls = urls'.
Proof.
  intros H. revert urls'.
  induction H as [c Hn|c s urls Hp Hn H IH|c s e u urls Hp Hq Hu H IH];
    intros urls' H'; inversion H' as [c' Hn'|c' s' urls0 Hp' Hn' H0|
                                       c' s' e' u' urls0 Hp' Hq' Hu' H0];
    subst.
  - done.
  - destruct (next_no_occurrence _ _ _ _ Hp' Hn).
  - destruct (next_no_occurrence _ _ _ _ Hp' Hn).
  - destruct (next_no_occurrence _ _ _ _ Hp Hn').
  - assert (s = s') as <- by eauto using next_occurrence_unique. by apply IH.
  - assert (s = s') as <- by eauto using next_occurrence_unique.
    destruct (next_no_occurrence _ _ _ _ Hq' Hn).
  - destruct (next_no_occurrence _ _ _ _ Hp Hn').
  - assert (s = s') as <- by eauto using next_occurrence_unique.
    destruct (next_no_occurrence _ _ _ _ Hq Hn').
  - assert (s = s') as <- by eauto using next_occurrence_unique.
    assert (e = e') as <- by eauto using next_occurrence_unique.
    f_equal; [by eapply substring_of_unique | by apply IH].
Qed.

End ScanLoop.

(** The per-file extraction returns on every text, with the output of the
    specification's algorithm. *)
Lemma scan_file_spec os_sep full_name rel text results :
  ∃ urls,
    scan_file os_sep full_name rel text results
      = Some (results ++
              (mkRecord full_name (replace_char os_sep "/" rel) <$> urls)) ∧
    spec_scan text 0 urls.
Proof.
  destruct text as [|c text'] eqn:E.
  - exists []. simpl. rewrite app_nil_r. split; [done|].
    apply spec_stop. intros j _ [Hj0 Hj]%occurs_at_bounds.
    rewrite len_prefix in Hj. unfold len in Hj. simpl in Hj. lia.
  - unfold scan_file. apply scan_while_spec; [lia | simpl; lia |].
    unfold len. lia.
Qed.

(** C1.  On every file text the per-file extraction returns, and the
    records it appends are exactly those of the specification's cursor
    algorithm (next prefix at [s] from the cursor; next suffix searched from
    [s] itself; on a miss the cursor becomes [s+1]; on a hit at [e] one
    record with the substring from [s] to [e+L] and the cursor becomes
    [e+1]), which has no other output. *)
Theorem scan_file_is_spec_algorithm os_sep full_name rel text results :
  ∃ urls,
    scan_file os_sep full_name rel text results
      = Some (results ++
              (mkRecord full_name (replace_char os_sep "/" rel) <$> urls)) ∧
    spec_scan text 0 urls ∧
    ∀ urls', spec_scan text 0 urls' → urls' = urls.
Proof.
  destruct (scan_file_spec os_sep full_name rel text results)
    as (urls & Hrun & Hspec).
  exists urls. split_and!; [done..|].
  intros urls' H'. by eapply spec_scan_det.
Qed.

(** ** Every emitted url is delimited by the prefix and the suffix *)

Lemma clash_before_last_slash d : (d < 27)%nat → clash d = true.
Proof.
  intros Hd.
  assert (forallb clash (seq 0 27) = true) as Hall by (vm_compute; reflexivity).
  rewrite forallb_forall in Hall. apply Hall, in_seq. lia.
Qed.

Lemma occurs_at_lookup sub text i k x :
  occurs_at sub text i → sub !! k = Some x →
  text !! (Z.to_nat i + k)%nat = Some x.
Proof.
  intros (a & b & -> & <-) Hk. unfold len. rewrite Nat2Z.id.
  rewrite lookup_app_r by lia.
  replace (length a + k - length a)%nat with k by lia.
  by apply lookup_app_l_Some.
Qed.

(** A suffix occurrence at or after a prefix occurrence starts no earlier
    than the last character of that prefix. *)
Lemma suffix_after_prefix text s e :
  occurs_at FIGPACK_PREFIX text s → occurs_at FIGPACK_SUFFIX text e →
  s ≤ e → s + 27 ≤ e.
Proof.
  intros Hp Hq Hse.
  destruct (Z.le_gt_cases (s + 27) e) as [?|Hlt]; [done|]. exfalso.
  pose proof (occurs_at_bounds _ _ _ Hp) as [Hs0 _].
  pose proof (clash_before_last_slash (Z.to_nat (e - s)) ltac:(lia)) as Hc.
  unfold clash in Hc. apply existsb_exists in Hc as (k & _ & Hk).
  destruct (FIGPACK_PREFIX !! (Z.to_nat (e - s) + k)%nat) as [x|] eqn:Ex; [|done].
  destruct (FIGPACK_SUFFIX !! k) as [y|] eqn:Ey; [|done].
  pose proof (occurs_at_lookup _ _ _ _ _ Hp Ex) as H1.
  pose proof (occurs_at_lookup _ _ _ _ _ Hq Ey) as H2.
  replace (Z.to_nat s + (Z.to_nat (e - s) + k))%nat
    with (Z.to_nat e + k)%nat in H1 by lia.
  rewrite H1 in H2. injection H2 as ->.
  by rewrite N.eqb_refl in Hk.
Qed.

(** The substring from a prefix occurrence to the end of a suffix
    occurrence at or after it starts with the prefix and ends with the
    suffix. *)
Lemma delimited_substring text s e u :
  occurs_at FIGPACK_PREFIX text s → occurs_at FIGPACK_SUFFIX text e →
  s ≤ e → substring_of text s (e + len FIGPACK_SUFFIX) u →
  FIGPACK_PREFIX `prefix_of` u ∧ FIGPACK_SUFFIX `suffix_of` u.
Proof.
  intros Hp Hq Hse (a & b & -> & Ha & Hu).
  pose proof (suffix_after_prefix _ _ _ Hp Hq Hse) as Hgap.
  rewrite len_suffix in Hu.
  destruct Hp as (a1 & b1 & E1 & Ha1). destruct Hq as (a2 & b2 & E2 & Ha2).
  unfold len in *. split.
  - assert (a1 = a) as ->.
    { apply (f_equal (take (length a))) in E1.
      rewrite take_app_length in E1. rewrite E1.
      replace (length a) with (length a1) by lia. by rewrite take_app_length. }
    apply app_inv_head in E1.
    apply (f_equal (take (length u))) in E1.
    rewrite take_app_length in E1. rewrite E1.
    pose proof len_prefix as HP. unfold len in HP.
    rewrite take_app_ge by lia. by eexists.
  - pose proof len_suffix as HS. unfold len in HS.
    assert (a ++ u = a2 ++ FIGPACK_SUFFIX) as E.
    { rewrite !app_assoc in E2.
      apply (f_equal (take (length (a ++ u)))) in E2.
      rewrite take_app_length in E2. rewrite E2.
      replace (length (a ++ u)) with (length (a2 ++ FIGPACK_SUFFIX))
        by (rewrite !length_app; lia).
      by rewrite take_app_length. }
    apply (f_equal (drop (length a))) in E.
    rewrite drop_app_length in E. rewrite E.
    rewrite drop_app_le by lia. by eexists.
Qed.

(** Every url of the specification's algorithm comes from a prefix
    occurrence and a suffix occurrence at or after it. *)
Lemma spec_scan_spans text c urls :
  spec_scan text c urls →
  ∀ u, u ∈ urls →
    ∃ s e, occurs_at FIGPACK_PREFIX text s ∧ occurs_at FIGPACK_SUFFIX text e ∧
           c ≤ s ∧ s ≤ e ∧ substring_of text s (e + len FIGPACK_SUFFIX) u.
Proof.
  induction 1 as [c Hn|c s urls Hp Hn H IH|c s e u urls Hp Hq Hu H IH];
    intros v Hv.
  - by apply elem_of_nil in Hv.
  - destruct (IH v Hv) as (s' & e' & ? & ? & ? & ? & ?).
    destruct Hp as (? & _). exists s', e'. split_and!; try done; lia.
  - destruct Hp as (? & Hp & _). destruct Hq as (? & Hq & _).
    apply elem_of_cons in Hv as [->|Hv].
    + exists s, e. split_and!; done.
    + destruct (IH v Hv) as (s' & e' & ? & ? & ? & ? & ?).
      exists s', e'. split_and!; try done; lia.
Qed.

(** C2.  On every file text the scan returns, and each record it appends has
    a url that starts with the prefix and ends with the suffix: the url is
    the substring from a prefix occurrence [s] to the end of a suffix
    occurrence [e] at or after [s].  A prefix occurrence with no suffix
    occurrence at or after it is the start of no emitted url.  In the
    overlap case, where the suffix starts on the last character of the
    prefix, the url is the whole of prefix and suffix sharing that
    character. *)
Theorem scan_urls_delimited os_sep full_name rel text results :
  (∃ new,
     scan_file os_sep full_name rel text results = Some (results ++ new) ∧
     (∀ r, r ∈ new →
        FIGPACK_PREFIX `prefix_of` url r ∧ FIGPACK_SUFFIX `suffix_of` url r ∧
        ∃ s e, occurs_at FIGPACK_PREFIX text s ∧
               occurs_at FIGPACK_SUFFIX text e ∧ s ≤ e ∧
               substring_of text s (e + len FIGPACK_SUFFIX) (url r)) ∧
     (∀ s, occurs_at FIGPACK_PREFIX text s →
           no_occurrence FIGPACK_SUFFIX text s →
           ∀ r t, r ∈ new → ¬ substring_of text s t (url r))) ∧
  scan_file os_sep full_name rel overlap_text []
    = Some [mkRecord full_name (replace_char os_sep "/" rel) overlap_text].
Proof.
  split; [|done].
  destruct (scan_file_spec os_sep full_name rel text results)
    as (urls & Hrun & Hspec).
  eexists. split; [exact Hrun|].
  assert (∀ r, r ∈ mkRecord full_name (replace_char os_sep "/" rel) <$> urls →
    FIGPACK_PREFIX `prefix_of` url r ∧ FIGPACK_SUFFIX `suffix_of` url r ∧
    ∃ s e, occurs_at FIGPACK_PREFIX text s ∧
           occurs_at FIGPACK_SUFFIX text e ∧ s ≤ e ∧
           substring_of text s (e + len FIGPACK_SUFFIX) (url r)) as Hall.
  { intros r (u & -> & Hu)%list_elem_of_fmap. simpl.
    destruct (spec_scan_spans _ _ _ Hspec u Hu) as (s & e & Hp & Hq & _ & Hse & Hsub).
    destruct (delimited_substring _ _ _ _ Hp Hq Hse Hsub).
    split_and!; [done..|]. by exists s, e. }
  split; [done|].
  intros s Hp Hnone r t Hr (a & b & E & Ha & Hlen).
  destruct (Hall r Hr) as (_ & [k Hk] & s' & e' & Hp' & Hq' & Hse' & Hsub').
  pose proof (suffix_after_prefix _ _ _ Hp' Hq' Hse').
  destruct Hsub' as (_ & _ & _ & _ & Hlen').
  pose proof (occurs_at_bounds _ _ _ Hp) as [Hs0 _].
  apply (Hnone (len (a ++ k))).
  - unfold len in *. rewrite length_app. lia.
  - exists (a ++ k), b. split; [|done].
    rewrite E, Hk. by rewrite <- !app_assoc.
Qed.

(** ** Two prefix occurrences before a single suffix *)

(** C3, as the code behaves.  On the scenario text the scan emits exactly one
    record; the prefix occurs at 2 and again at 34, the only suffix occurrence
    is at 64, and the emitted url is the text from the first prefix
    occurrence (2) to the end of the suffix. *)
Theorem two_prefix_first_occurrence_pairs os_sep full_name rel :
  find two_prefix_text FIGPACK_PREFIX 0 = 2 ∧
  find two_prefix_text FIGPACK_PREFIX 3 = 34 ∧
  find two_prefix_text FIGPACK_PREFIX 35 = -1 ∧
  find two_prefix_text FIGPACK_SUFFIX 0 = 64 ∧
  find two_prefix_text FIGPACK_SUFFIX 65 = -1 ∧
  scan_file os_sep full_name rel two_prefix_text []
    = Some [mkRecord full_name (replace_char os_sep "/" rel)
              (slice two_prefix_text 2 75)] ∧
  slice two_prefix_text 2 75 = of_string
    "https://figures.figpack.org/x B https://figures.figpack.org/y /index.html".
Proof. split_and!; reflexivity. Qed.

(** C3, as stated, fails: the scan of the scenario text does emit one record,
    but its url is not a substring starting at the second prefix occurrence
    (position 34). *)
Lemma two_prefix_second_occurrence_does_not_pair :
  find two_prefix_text FIGPACK_PREFIX 3 = 34 ∧
  ¬ ∃ r t, scan_file "/" "o/n" "notes.md" two_prefix_text [] = Some [r] ∧
           substring_of two_prefix_text 34 t (url r).
Proof.
  split; [reflexivity|].
  intros (r & t & Hrun & a & b & E & Ha & _).
  assert (scan_file "/" "o/n" "notes.md" two_prefix_text []
          = Some [mkRecord "o/n" "notes.md" (slice two_prefix_text 2 75)])
    as Hcode by reflexivity.
  rewrite Hcode in Hrun. injection Hrun as <-. cbn [url] in E.
  apply (f_equal length) in E. rewrite !length_app in E.
  unfold len in Ha.
  change (length two_prefix_text) with 75%nat in E.
  change (length (slice two_prefix_text 2 75)) with 73%nat in E.
  lia.
Qed.

(** ** Termination of the scan loop *)

Lemma find_neg_start text sub c :
  c < 0 → find text sub c = find text sub (Z.max 0 (c + len text)).
Proof.
  intros Hc. unfold find.
  destruct (Z.ltb_spec c 0) as [_|?]; [|lia].
  by destruct (Z.ltb_spec (Z.max 0 (c + len text)) 0) as [?|_]; [lia|].
Qed.

(** A successful [find] answers at or after its start. *)
Lemma find_ge text sub c :
  find text sub c ≠ -1 → c ≤ find text sub c ∧ 0 ≤ find text sub c.
Proof.
  destruct (Z.lt_ge_cases c 0) as [Hneg|Hpos].
  - rewrite find_neg_start by done. intros Hf.
    destruct (find_spec text sub (Z.max 0 (c + len text)) ltac:(lia))
      as [[? _]|[_ (? & _)]]; [done | lia].
  - intros Hf. destruct (find_spec text sub c Hpos) as [[? _]|[_ (? & _)]];
      [done | lia].
Qed.

(** C9.  The per-file extraction returns on every text.  On a non-empty
    text (the only ones the loop is entered on) [length text] evaluations of
    the loop body suffice.  Each evaluation that does not break moves the
    cursor strictly forward: a prefix found from [pos] is at
    [start_idx >= pos], so a miss sets the cursor to [start_idx + 1 > pos];
    a suffix found from [start_idx] is at [end_idx >= start_idx], so a hit
    sets it to [end_idx + 1 > pos]. *)
Theorem scan_loop_terminates os_sep full_name rel text results pos :
  (∃ rs, scan_file os_sep full_name rel text results = Some rs) ∧
  (text ≠ [] →
   ∃ rs, scan_while (length text) full_name rel text 0 results = Some rs) ∧
  (let start_idx := find text FIGPACK_PREFIX pos in
   start_idx ≠ -1 →
   pos ≤ start_idx ∧ pos < start_idx + 1 ∧
   (let end_idx := find text FIGPACK_SUFFIX start_idx in
    end_idx ≠ -1 → start_idx ≤ end_idx ∧ pos < end_idx + 1)).
Proof.
  split_and!.
  - destruct (scan_file_spec os_sep full_name rel text results) as (? & ? & _).
    by eexists.
  - intros Hne.
    destruct (scan_while_spec full_name rel text (length text) 0 results)
      as (urls & Hrun & _); [lia | destruct text; [done | simpl; lia] | |].
    + unfold len. lia.
    + by eexists.
  - intros s Hs. destruct (find_ge _ _ _ Hs) as [? ?].
    split_and!; [lia..|]. intros e He. destruct (find_ge _ _ _ He). lia.
Qed.

(** ** De-duplication keeps first occurrences *)

Section Dedupe.

Implicit Types (l : list MatchRecord) (seen : gset (string * string * str)).

Lemma key_inj r r' : key r = key r' → r = r'.
Proof. destruct r, r'. unfold key; simpl. by intros [= -> -> ->]. Qed.

Lemma dedupe_loop_fresh l seen acc :
  dedupe_loop l seen acc = acc ++ fresh seen l.
Proof.
  revert seen acc. induction l as [|r l IH]; intros seen acc; simpl.
  - by rewrite app_nil_r.
  - case_decide; [done|]. by rewrite IH, <- app_assoc.
Qed.

Lemma elem_of_fresh seen l r :
  r ∈ fresh seen l ↔ r ∈ l ∧ key r ∉ seen.
Proof.
  revert seen. induction l as [|a l IH]; intros seen; simpl.
  - set_solver.
  - case_decide as Ha.
    + rewrite IH, elem_of_cons. split; [naive_solver|].
      intros [[->|?] ?]; naive_solver.
    + rewrite !elem_of_cons, IH. split.
      * intros [->|[? ?]]; [naive_solver | set_solver].
      * intros [[->|?] ?]; [by left|].
        destruct (decide (key r = key a)) as [E|NE].
        -- left. by apply key_inj.
        -- right. set_solver.
Qed.

Lemma fresh_NoDup seen l : NoDup (key <$> fresh seen l).
Proof.
  revert seen. induction l as [|a l IH]; intros seen; simpl.
  - constructor.
  - case_decide; [done|]. simpl. constructor; [|done].
    intros (r & E & [_ Hr]%elem_of_fresh)%list_elem_of_fmap.
    apply Hr. rewrite <- E. by apply elem_of_union_l, elem_of_singleton.
Qed.

Lemma fresh_sublist seen l : fresh seen l `sublist_of` l.
Proof.
  revert seen. induction l as [|a l IH]; intros seen; simpl; [done|].
  case_decide; [by apply sublist_cons | by apply sublist_skip].
Qed.

(** An output element is the first occurrence of its key in the input, and
    the output before it is the output of the input before it. *)
Lemma fresh_split seen l l1 x l2 :
  fresh seen l = l1 ++ x :: l2 →
  ∃ p q, l = p ++ x :: q ∧ (key x ∉ (key <$> p)) ∧ (key x ∉ seen) ∧
         fresh seen p = l1.
Proof.
  revert seen l1. induction l as [|a l IH]; intros seen l1; simpl.
  - by destruct l1.
  - case_decide as Ha.
    + intros (p & q & -> & Hp & Hs & Hf)%IH. exists (a :: p), q. simpl.
      rewrite decide_True by done. split_and!; [done | | done..].
      rewrite not_elem_of_cons. split; [congruence | done].
    + destruct l1 as [|b l1]; simpl.
      * intros [= -> <-]. exists [], l. split_and!; [done | | done..].
        apply not_elem_of_nil.
      * intros [= -> (p & q & -> & Hp & Hs & Hf)%IH].
        exists (b :: p), q. simpl. rewrite decide_False by done.
        assert (key x ∉ seen) by (intros ?; by apply Hs, elem_of_union_r).
        split_and!; [done | | done | by rewrite Hf].
        rewrite not_elem_of_cons. split; [|done].
        intros E. apply Hs. rewrite E.
        by apply elem_of_union_l, elem_of_singleton.
Qed.

End Dedupe.

(** C4.  For every input list, the de-duplication loop outputs a list in
    which no triple occurs twice, which has exactly the records of the
    input, and which is a subsequence of the input; its order is that of
    first occurrences: an output record [x] stands in the input at a place
    [p ++ x :: q] with no equal triple in [p], the output before [x] is the
    output for [p], and a record [y] that comes after [x] in the output
    does not occur in [p]. *)
Theorem dedupe_first_occurrences (all_records : list MatchRecord) :
  NoDup (key <$> dedupe all_records) ∧
  NoDup (dedupe all_records) ∧
  (∀ r, r ∈ dedupe all_records ↔ r ∈ all_records) ∧
  dedupe all_records `sublist_of` all_records ∧
  (∀ l1 x l2, dedupe all_records = l1 ++ x :: l2 →
     ∃ p q, all_records = p ++ x :: q ∧ (x ∉ p) ∧ dedupe p = l1 ∧
            ∀ y, y ∈ l2 → y ∉ p).
Proof.
  unfold dedupe. setoid_rewrite dedupe_loop_fresh. simpl.
  pose proof (fresh_NoDup ∅ all_records) as Hnd.
  split_and!.
  - done.
  - by apply (NoDup_fmap_1 key).
  - intros r. rewrite elem_of_fresh. set_solver.
  - apply fresh_sublist.
  - intros l1 x l2 E. rewrite E in Hnd.
    destruct (fresh_split _ _ _ _ _ E) as (p & q & -> & Hp & _ & Hf).
    exists p, q. split_and!; [done | | done |].
    + intros Hx. apply Hp, list_elem_of_fmap. by exists x.
    + intros y Hy Hyp.
      assert (y ∈ l1) as Hy1.
      { rewrite <- Hf. apply elem_of_fresh. set_solver. }
      rewrite fmap_app in Hnd. apply NoDup_app in Hnd as (_ & Hdis & _).
      apply (Hdis (key y)).
      * apply list_elem_of_fmap. by exists y.
      * simpl. right. apply list_elem_of_fmap. by exists y.
Qed.


(** ** The query stage *)

Section QueryFacts.

Variable server : Server.

Lemma attempts_app tr tr' page :
  attempts (tr ++ tr') page = (attempts tr page + attempts tr' page)%nat.
Proof. unfold attempts. by rewrite filter_app, length_app. Qed.

Lemma attempts_requested tr page :
  page ∉ requested tr → attempts tr page = 0%nat.
Proof.
  unfold attempts, requested. induction tr as [|ev tr IH]; [done|].
  intros Hn. rewrite filter_cons. destruct ev as [p|s]; simpl in Hn.
  - apply not_elem_of_cons in Hn as [Hp Hn].
    rewrite decide_False by congruence. by apply IH.
  - rewrite decide_False by done. by apply IH.
Qed.

Lemma attempts_get page : attempts [Get page] page = 1%nat.
Proof.
  unfold attempts. rewrite filter_cons, decide_True by done. done.
Qed.

Lemma attempts_sleep secs page : attempts [Sleep secs] page = 0%nat.
Proof.
  unfold attempts. rewrite filter_cons, decide_False by done. done.
Qed.

Lemma requested_app tr tr' : requested (tr ++ tr') = requested tr ++ requested tr'.
Proof. apply omap_app. Qed.

(** The handler returns at once on a 403 that fails its header test. *)
Lemma handle_not_limited resp w :
  status_code resp = 403 → rate_limited resp = false →
  handle_rate_limit resp w = (Ok (), w).
Proof.
  intros Hs Hl. unfold handle_rate_limit, rate_limited in *.
  rewrite bool_decide_false by (intros ?; done). by rewrite Hl.
Qed.

(** A number that fits a timeout has far fewer than 4300 digits. *)
Lemma small_is_printable n :
  Z.abs n ≤ 9223372036 → PyInt.printable n = true.
Proof.
  intros Hn. unfold PyInt.printable. apply Z.ltb_lt.
  assert (9223372036 < PyInt.STR_BOUND) by (vm_compute; reflexivity). lia.
Qed.

(** [time.sleep] serves what is [sleepable] and raises on the rest. *)
Lemma time_sleep_served w secs :
  sleepable w secs → time_sleep secs w = (Ok (), asleep w secs).
Proof.
  intros [[? ?] ?]. unfold time_sleep. cbv zeta.
  rewrite !bool_decide_false by lia. done.
Qed.

Lemma time_sleep_refused w secs :
  ¬ sleepable w secs →
  time_sleep secs w
  = (Raise (if bool_decide (secs < -9223372036 ∨ 9223372036 < secs)
            then OverflowError
            else if bool_decide (secs < 0) then ValueError else OSError), w).
Proof.
  intros Hn. unfold time_sleep. cbv zeta.
  case_bool_decide; [done|].
  case_bool_decide; [by rewrite bool_decide_true by lia|].
  rewrite (bool_decide_false (secs < 0)) by lia.
  case_bool_decide; [done|].
  destruct Hn. unfold sleepable. lia.
Qed.

(** The handler, once its header test has passed and [int] has read the
    reset time: the message is formatted, then the sleep is asked for. *)
Lemma handle_limited_unfold resp w ts :
  status_code resp = 403 → rate_limited resp = true →
  reset_ts resp = Some ts →
  handle_rate_limit resp w
  = (format_int (Z.max 0 (ts - now w) + 1) ;;
     time_sleep (Z.max 0 (ts - now w) + 1)) w.
Proof.
  intros Hs Hl Hts. unfold handle_rate_limit, rate_limited, reset_ts in *.
  rewrite bool_decide_false by (intros ?; done). rewrite Hl, Hts. done.
Qed.

(** The handler sleeps until one second after the reset time. *)
Lemma handle_limited resp w ts :
  status_code resp = 403 → rate_limited resp = true →
  reset_ts resp = Some ts →
  sleepable w (Z.max 0 (ts - now w) + 1) →
  handle_rate_limit resp w = (Ok (), asleep w (Z.max 0 (ts - now w) + 1)).
Proof.
  intros Hs Hl Hts Hsl. rewrite (handle_limited_unfold _ _ ts) by done.
  unfold mbind, M_bind, format_int.
  rewrite small_is_printable by (destruct Hsl; lia).
  by apply time_sleep_served.
Qed.

(** The handler raises when [int] rejects the reset header. *)
Lemma handle_unreadable resp w :
  status_code resp = 403 → rate_limited resp = true →
  reset_ts resp = None →
  handle_rate_limit resp w = (Raise ValueError, w).
Proof.
  intros Hs Hl Hts. unfold handle_rate_limit, rate_limited, reset_ts in *.
  rewrite bool_decide_false by (intros ?; done). rewrite Hl, Hts. done.
Qed.

(** The handler raises on a wait that cannot be slept: [ValueError] from the
    message when the wait has more than 4300 digits, else [OverflowError]
    from a timeout that does not fit, else [OSError] from the deadline. *)
Lemma handle_unsleepable resp w ts :
  status_code resp = 403 → rate_limited resp = true →
  reset_ts resp = Some ts →
  let secs := Z.max 0 (ts - now w) + 1 in
  ¬ sleepable w secs →
  handle_rate_limit resp w
  = (Raise (if negb (PyInt.printable secs) then ValueError
            else if bool_decide (9223372036 < secs) then OverflowError
            else OSError), w).
Proof.
  intros Hs Hl Hts secs Hsl. rewrite (handle_limited_unfold _ _ ts) by done.
  fold secs. unfold mbind, M_bind, format_int.
  destruct (PyInt.printable secs); [|done]. simpl.
  rewrite time_sleep_refused by done.
  rewrite (bool_decide_false (secs < 0)) by (unfold secs; lia).
  case_bool_decide as E1; case_bool_decide as E2; try done;
    exfalso; unfold secs in *; lia.
Qed.

(** On a 403 the handler either returns or raises, leaving then the world
    as it was. *)
Lemma handle_raises resp w :
  status_code resp = 403 → rate_limited resp = true →
  ¬ handler_returns resp w →
  ∃ e, handle_rate_limit resp w = (Raise e, w).
Proof.
  intros Hs Hl Hn. destruct (reset_ts resp) as [ts|] eqn:Hts.
  - eexists. apply (handle_unsleepable _ _ ts); [done..|].
    intros Hsl. apply Hn. right. by exists ts.
  - exists ValueError. by apply handle_unreadable.
Qed.

Lemma search_pages_cons page rest per_page all_items w :
  search_pages server (page :: rest) per_page all_items w
  = (fetch_page server page ≫= after_fetch server rest per_page all_items) w.
Proof.
  cbn [search_pages]. unfold fetch_page, after_fetch, mbind, M_bind.
  cbn [requests_get].
  destruct (status_code _ =? 403); [|done].
  by destruct (handle_rate_limit _ _) as [[[]|e] w1].
Qed.

(** The four ways the first half of the loop body can go. *)
Lemma fetch_page_cases page w :
  let n := attempts (trace w) page in
  let first := server page n in
  (status_code first ≠ 403 ∧
   fetch_page server page w = (Ok first, asked w page)) ∨
  (status_code first = 403 ∧ rate_limited first = false ∧
   fetch_page server page w
     = (Ok (server page (S n)),
        mkWorld (now w) (monotonic w) (trace w ++ [Get page; Get page]))) ∨
  (status_code first = 403 ∧ rate_limited first = true ∧
   ∃ ts, reset_ts first = Some ts ∧
     sleepable w (Z.max 0 (ts - now w) + 1) ∧
     fetch_page server page w
       = (Ok (server page (S n)),
          mkWorld (now w + (Z.max 0 (ts - now w) + 1))
            (monotonic w + (Z.max 0 (ts - now w) + 1) * 1000000000)
            (trace w ++ [Get page; Sleep (Z.max 0 (ts - now w) + 1);
                         Get page]))) ∨
  (status_code first = 403 ∧ rate_limited first = true ∧
   ¬ handler_returns first w ∧
   ∃ e, handle_rate_limit first (asked w page) = (Raise e, asked w page) ∧
        fetch_page server page w = (Raise e, asked w page)).
Proof.
  intros n first. unfold fetch_page, mbind, M_bind. cbn [requests_get].
  fold n. fold first. fold (asked w page).
  destruct (Z.eqb_spec (status_code first) 403) as [Hs|Hs]; [|by left].
  right. destruct (rate_limited first) eqn:Hl.
  - right.
    assert ((∃ ts, reset_ts first = Some ts ∧
                   sleepable w (Z.max 0 (ts - now w) + 1)) ∨
            ¬ handler_returns first w) as [(ts & Hts & Hsl)|Hn].
    { destruct (reset_ts first) as [ts|] eqn:Hts.
      - destruct (decide (sleepable w (Z.max 0 (ts - now w) + 1))) as [|Hn];
          [left; by exists ts|].
        right. intros [?|(ts' & Hts' & ?)]; [congruence|].
        rewrite Hts in Hts'. by injection Hts' as <-.
      - right. intros [?|(ts' & Hts' & ?)]; congruence. }
    + left. split_and!; [done..|]. exists ts. split_and!; [done..|].
      rewrite (handle_limited _ _ ts) by done. cbn.
      unfold requests_get, asleep, asked. cbn [now monotonic trace].
      rewrite !attempts_app, attempts_get, attempts_sleep. fold n.
      rewrite <- !app_assoc. simpl.
      by replace (n + 1 + 0)%nat with (S n) by lia.
    + right. split_and!; [done..|].
      destruct (handle_raises first (asked w page)) as [e He]; [done..|].
      exists e. by rewrite He.
  - left. split_and!; [done..|]. rewrite handle_not_limited by done. cbn.
    unfold requests_get, asked. cbn [now monotonic trace].
    rewrite attempts_app, attempts_get. fold n.
    rewrite <- !app_assoc. simpl.
    by replace (n + 1)%nat with (S n) by lia.
Qed.

(** The second half of the loop body stops or goes on to the next page
    without a request of its own. *)
Lemma after_fetch_cases rest per_page all_items resp w :
  let items := default [] (json_items resp) in
  (status_code resp ≠ 200 ∧
   after_fetch server rest per_page all_items resp w = (Ok all_items, w)) ∨
  (status_code resp = 200 ∧ length items = 0%nat ∧
   after_fetch server rest per_page all_items resp w = (Ok all_items, w)) ∨
  (status_code resp = 200 ∧ length items ≠ 0%nat ∧
   Z.of_nat (length items) < per_page ∧
   after_fetch server rest per_page all_items resp w
     = (Ok (all_items ++ items), w)) ∨
  (status_code resp = 200 ∧ length items ≠ 0%nat ∧
   ¬ Z.of_nat (length items) < per_page ∧
   after_fetch server rest per_page all_items resp w
     = search_pages server rest per_page (all_items ++ items) w).
Proof.
  intros items. unfold after_fetch. fold items.
  destruct (Z.eqb_spec (status_code resp) 200) as [Hs|Hs]; [|by left].
  right. simpl. destruct items as [|it items'] eqn:E; [by left|].
  right. destruct (Z.ltb_spec (Z.of_nat (length (it :: items'))) per_page).
  - left. by split_and!.
  - right. split_and!; [done.. | lia | done].
Qed.

(** Whatever the loop does after a state, it only appends to the trace, and
    the requests it appends are for pages it was given. *)
Lemma search_pages_requests pages per_page all_items w :
  ∃ later,
    trace (search_pages server pages per_page all_items w).2
      = trace w ++ later ∧
    ∀ p, p ∈ requested later → p ∈ pages.
Proof.
  revert all_items w. induction pages as [|page rest IH]; intros all_items w.
  - exists []. simpl. rewrite app_nil_r. split; [done|].
    intros p Hp. by apply elem_of_nil in Hp.
  - rewrite search_pages_cons. unfold mbind, M_bind.
    assert (∀ resp w1 ev,
      trace w1 = trace w ++ ev → (∀ p, p ∈ requested ev → p = page) →
      ∃ later,
        trace (after_fetch server rest per_page all_items resp w1).2
          = trace w ++ later ∧
        ∀ p, p ∈ requested later → p ∈ page :: rest) as Hafter.
    { intros resp w1 ev Hw1 Hev.
      destruct (after_fetch_cases rest per_page all_items resp w1)
        as [(_ & ->)|[(_ & _ & ->)|[(_ & _ & _ & ->)|(_ & _ & _ & ->)]]];
        simpl.
      1-3: exists ev; split; [done|];
           intros p ->%Hev; apply elem_of_cons; by left.
      destruct (IH (all_items ++ default [] (json_items resp)) w1)
        as (later & -> & Hl).
      exists (ev ++ later). rewrite Hw1, app_assoc. split; [done|].
      intros p. rewrite requested_app, elem_of_app, elem_of_cons.
      intros [->%Hev|?%Hl]; [by left | by right]. }
    destruct (fetch_page_cases page w)
      as [(_ & ->)|[(_ & _ & ->)|[(_ & _ & ts & _ & _ & ->)
                                 |(_ & _ & _ & e & _ & ->)]]].
    + apply (Hafter _ _ [Get page]); [done|]. simpl.
      by intros p ->%list_elem_of_singleton.
    + apply (Hafter _ _ [Get page; Get page]); [done|]. simpl.
      intros p. rewrite !elem_of_cons, elem_of_nil. naive_solver.
    + eapply (Hafter _ _ [Get page; Sleep _; Get page]); [done|]. simpl.
      intros p. rewrite !elem_of_cons, elem_of_nil. naive_solver.
    + exists [Get page]. simpl. split; [done|].
      intros p ->%list_elem_of_singleton. apply elem_of_cons. by left.
Qed.

End QueryFacts.

Lemma after_fetch_requests server rest per_page all_items resp w :
  ∃ later,
    trace (after_fetch server rest per_page all_items resp w).2
      = trace w ++ later ∧
    ∀ p, p ∈ requested later → p ∈ rest.
Proof.
  destruct (after_fetch_cases server rest per_page all_items resp w)
    as [(_ & ->)|[(_ & _ & ->)|[(_ & _ & _ & ->)|(_ & _ & _ & ->)]]].
  1-3: exists []; simpl; rewrite app_nil_r; split; [done|];
       intros p Hp; by apply elem_of_nil in Hp.
  apply search_pages_requests.
Qed.

Lemma attempts_later tr later page n :
  attempts tr page = n → page ∉ requested later →
  attempts (tr ++ later) page = n.
Proof.
  intros <- Hl. rewrite attempts_app, (attempts_requested later) by done. lia.
Qed.





(** X14.  At any iteration of the search loop, when the first answer for
    the page is a 403 on which the handler returns, the same page is asked
    for exactly once more.  The second request follows at once, with no
    sleep, unless the remaining-quota header is "0" and a non-empty reset
    header is present; in particular it follows at once when the remaining
    header is not "0" or the reset header is absent.  When the stage does
    sleep, it sleeps once, [max(0, ts - now) + 1] seconds. *)
Theorem every_403_is_retried_once server page rest per_page all_items w :
  let n := attempts (trace w) page in
  let first := server page n in
  status_code first = 403 →
  handler_returns first w →
  let run := search_pages server (page :: rest) per_page all_items w in
  ∃ sleeps later,
    trace run.2 = trace w ++ [Get page] ++ sleeps ++ [Get page] ++ later ∧
    (∀ p, p ∈ requested later → p ∈ rest) ∧
    (page ∉ rest → attempts (trace run.2) page = (2 + n)%nat) ∧
    (headers first !! "X-RateLimit-Remaining" ≠ Some "0" ∨
     headers first !! "X-RateLimit-Reset" = None → sleeps = []) ∧
    (sleeps ≠ [] →
     headers first !! "X-RateLimit-Remaining" = Some "0" ∧
     is_Some (headers first !! "X-RateLimit-Reset")) ∧
    (sleeps = [] ∨
     ∃ ts, reset_ts first = Some ts ∧
           sleeps = [Sleep (Z.max 0 (ts - now w) + 1)]).
Proof.
  intros n first Hs Hret run.
  pose proof (fetch_page_cases server page w) as Hc. cbv zeta in Hc.
  change (attempts (trace w) page) with n in Hc.
  change (server page n) with first in Hc.
  assert (∃ sleeps w1,
    fetch_page server page w = (Ok (server page (S n)), w1) ∧
    trace w1 = trace w ++ [Get page] ++ sleeps ++ [Get page] ∧
    (rate_limited first = false → sleeps = []) ∧
    (sleeps = [] ∨
     ∃ ts, reset_ts first = Some ts ∧
           sleeps = [Sleep (Z.max 0 (ts - now w) + 1)]))
    as (sleeps & w1 & Hfetch & Hw1 & Hnone & Hone).
  { destruct Hc
      as [(? & _)|[(_ & Hl & ->)|[(_ & Hl & ts & Hts & _ & ->)
                                 |(_ & _ & Hn & _)]]].
    - done.
    - eexists [], _. split_and!; [done | done | done | by left].
    - eexists [Sleep (Z.max 0 (ts - now w) + 1)], _.
      split_and!; [done | done | congruence | right; by exists ts].
    - done. }
  destruct (after_fetch_requests server rest per_page all_items
              (server page (S n)) w1) as (later & Hlater & Hreq).
  assert (trace run.2
          = trace w ++ [Get page] ++ sleeps ++ [Get page] ++ later) as Htr.
  { unfold run. rewrite search_pages_cons. unfold mbind, M_bind.
    rewrite Hfetch, Hlater, Hw1. by rewrite <- !app_assoc. }
  exists sleeps, later. split_and!; [done | done | | | | done].
  - intros Hnotin. rewrite Htr.
    rewrite (app_assoc _ _ later), (app_assoc _ _ later), app_assoc.
    apply attempts_later; [|intros Hp; by apply Hnotin, Hreq].
    rewrite !attempts_app, attempts_get. fold n.
    destruct Hone as [->|(ts & _ & ->)].
    + change (attempts [] page) with 0%nat. lia.
    + rewrite attempts_sleep. lia.
  - intros Hhead. apply Hnone. unfold rate_limited.
    destruct Hhead as [Hrem|Hres].
    + by rewrite bool_decide_false.
    + rewrite Hres. simpl. by rewrite andb_false_r.
  - intros Hne. destruct (rate_limited first) eqn:Hl.
    + unfold rate_limited in Hl. apply andb_true_iff in Hl as [Hrem Hres].
      apply bool_decide_eq_true in Hrem. split; [done|].
      by destruct (headers first !! "X-RateLimit-Reset").
    + by destruct Hne, Hnone.
Qed.

(** A run of the theorem on a 403 without rate-limit headers: the retry is
    immediate. *)
Lemma plain_403_run :
  ∃ sleeps later,
    trace (search_pages (λ _ _, mkResponse 403 ∅ None) [1; 2] 100 []
             (mkWorld 0 0 [])).2
      = [] ++ [Get 1] ++ sleeps ++ [Get 1] ++ later ∧ sleeps = [].
Proof.
  assert (handler_returns (mkResponse 403 ∅ None) (mkWorld 0 0 [])) as Hret
    by (left; vm_compute; reflexivity).
  destruct (every_403_is_retried_once (λ _ _, mkResponse 403 ∅ None)
              1 [2] 100 [] (mkWorld 0 0 []) eq_refl Hret)
    as (sleeps & later & Htr & _ & _ & Hnone & _).
  exists sleeps, later. split; [exact Htr|]. apply Hnone. by right.
Defined.

(** C10.  The code at two failing inputs.  The first answer for page 1 is a
    403 with the remaining-quota header "0".  With the reset header "soon",
    [int] raises [ValueError] in the handler; with the reset header
    "99999999999", [time.sleep] raises [OverflowError] on a wait of
    98300000010 seconds.  Either way the page is requested once and never
    again, nothing is slept, and the search does not return. *)
Theorem crashing_403_is_not_retried :
  status_code (server_bad_reset 1 0%nat) = 403 ∧
  PyInt.int "soon" = None ∧
  search_code server_bad_reset 10 100 (mkWorld 1699999990 86400000000000 [])
  = (Raise ValueError, mkWorld 1699999990 86400000000000 [Get 1]) ∧
  status_code (server_far_reset 1 0%nat) = 403 ∧
  PyInt.int "99999999999" = Some 99999999999 ∧
  search_code server_far_reset 10 100 (mkWorld 1699999990 86400000000000 [])
  = (Raise OverflowError, mkWorld 1699999990 86400000000000 [Get 1]).
Proof. split_and!; vm_compute; reflexivity. Qed.

Lemma py_range_NoDup a b : NoDup (py_range a b).
Proof.
  unfold py_range. apply NoDup_fmap_2; [|apply NoDup_seq].
  intros i j Hij. lia.
Qed.





(** C6.  The code at two failing inputs.  Page 1 is a full page of two
    hits; the first answer for page 2 is a 403 with the remaining-quota
    header "0".  The claim has the search return the two hits.  With the
    reset header "soon", [int] raises [ValueError] in the handler; with the
    reset header "99999999999", [time.sleep] raises [OverflowError].  Either
    way the search returns nothing, and the two hits are lost. *)
Theorem crash_loses_collected_items :
  spec_collect 2 (post_retry server_bad_reset_later <$> py_range 1 (3 + 1))
  = [hit "a/b"; hit "c/d"] ∧
  search_code server_bad_reset_later 3 2
    (mkWorld 1699999990 86400000000000 [])
  = (Raise ValueError, mkWorld 1699999990 86400000000000 [Get 1; Get 2]) ∧
  spec_collect 2 (post_retry server_far_reset_later <$> py_range 1 (3 + 1))
  = [hit "a/b"; hit "c/d"] ∧
  search_code server_far_reset_later 3 2
    (mkWorld 1699999990 86400000000000 [])
  = (Raise OverflowError, mkWorld 1699999990 86400000000000 [Get 1; Get 2]).
Proof. split_and!; vm_compute; reflexivity. Qed.

(** ** Acquisition skips what is already on disk *)

Section Acquisition.

Variables (workdir : string).

Local Abbreviation target := (target_of workdir).


(** One call of [clone_repo]: what it reports, what it adds to the disk and
    which command it runs. *)
Lemma clone_repo_cases git name d :
  let url := GITHUB_WEB_CLONE_URL name in
  (target name ∈ paths d ∧
   clone_repo git name workdir d = ((name, target name, true), d)) ∨
  ((target name ∉ paths d) ∧ git url (target name) = true ∧
   clone_repo git name workdir d
     = ((name, target name, true),
        mkDisk ({[target name]} ∪ ({[workdir]} ∪ paths d))
          (git_calls d ++ [(url, target name)]))) ∨
  ((target name ∉ paths d) ∧ git url (target name) = false ∧
   clone_repo git name workdir d
     = ((name, target name, false),
        mkDisk ({[workdir]} ∪ paths d)
          (git_calls d ++ [(url, target name)]))).
Proof.
  intros url. unfold clone_repo. fold (target_of workdir name). fold url.
  case_decide; [by left|]. right. simpl.
  destruct (git url (target name)); [left | right]; done.
Qed.



Lemma acquire_paths_mono git repos cr d :
  paths d ⊆ paths (acquire git workdir repos cr d).2.
Proof.
  revert cr d. induction repos as [|name rest IH]; intros cr d; simpl; [done|].
  destruct (clone_repo_cases git name d)
    as [(_ & ->)|[(_ & _ & ->)|(_ & _ & ->)]]; simpl.
  - apply IH.
  - etrans; [|apply IH]. simpl. set_solver.
  - etrans; [|apply IH]. simpl. set_solver.
Qed.




End Acquisition.


(** ** The empty-result shortcuts of the pipeline *)



(** ** Further properties of the scan *)

Lemma clash_after_inside d : (1 ≤ d < 11)%nat → clash_after d = true.
Proof.
  intros Hd.
  assert (forallb clash_after (seq 1 10) = true) as Hall
    by (vm_compute; reflexivity).
  rewrite forallb_forall in Hall. apply Hall, in_seq. lia.
Qed.

(** No prefix occurrence starts inside a suffix occurrence. *)
Lemma prefix_after_suffix text e s :
  occurs_at FIGPACK_SUFFIX text e → occurs_at FIGPACK_PREFIX text s →
  e < s → e + len FIGPACK_SUFFIX ≤ s.
Proof.
  intros Hq Hp Hes. rewrite len_suffix.
  destruct (Z.le_gt_cases (e + 11) s) as [?|Hlt]; [done|]. exfalso.
  pose proof (occurs_at_bounds _ _ _ Hq) as [He0 _].
  pose proof (clash_after_inside (Z.to_nat (s - e)) ltac:(lia)) as Hc.
  unfold clash_after in Hc. apply existsb_exists in Hc as (k & _ & Hk).
  destruct (FIGPACK_SUFFIX !! (Z.to_nat (s - e) + k)%nat) as [x|] eqn:Ex; [|done].
  destruct (FIGPACK_PREFIX !! k) as [y|] eqn:Ey; [|done].
  pose proof (occurs_at_lookup _ _ _ _ _ Hq Ex) as H1.
  pose proof (occurs_at_lookup _ _ _ _ _ Hp Ey) as H2.
  replace (Z.to_nat e + (Z.to_nat (s - e) + k))%nat
    with (Z.to_nat s + k)%nat in H1 by lia.
  rewrite H1 in H2. injection H2 as ->.
  by rewrite N.eqb_refl in Hk.
Qed.

Lemma disjoint_spans_lower text c c' spans :
  c ≤ c' → disjoint_spans text c' spans → disjoint_spans text c spans.
Proof.
  destruct spans as [|[s e] rest]; [done|]. simpl.
  intros Hc (? & ? & ? & ?). split_and!; [lia | done..].
Qed.

Lemma disjoint_spans_raise text e spans :
  occurs_at FIGPACK_SUFFIX text e →
  disjoint_spans text (e + 1) spans →
  disjoint_spans text (e + len FIGPACK_SUFFIX) spans.
Proof.
  destruct spans as [|[s e'] rest]; [done|]. simpl.
  intros Hq (Hs & Hp & ? & ?). split_and!; [|done..].
  apply (prefix_after_suffix text); [done | done | lia].
Qed.

(** The urls of the specification's algorithm are the urls of disjoint
    spans. *)
Lemma spec_scan_disjoint text c urls :
  spec_scan text c urls →
  ∃ spans, urls = span_url text <$> spans ∧ disjoint_spans text c spans.
Proof.
  induction 1 as [c Hn|c s urls Hp Hn H IH|c s e u urls Hp Hq Hu H IH].
  - by exists [].
  - destruct IH as (spans & -> & Hd). exists spans. split; [done|].
    destruct Hp as (? & _). apply (disjoint_spans_lower _ _ (s + 1)); [lia|done].
  - destruct IH as (spans & -> & Hd). exists ((s, e) :: spans).
    pose proof Hp as (? & Hp' & _). pose proof Hq as (? & Hq' & _). split.
    + simpl. f_equal. eapply substring_of_unique; [done|].
      unfold span_url. simpl. apply slice_substring.
      * pose proof (occurs_at_bounds _ _ _ Hp'). rewrite len_suffix. lia.
      * by destruct (occurs_at_bounds _ _ _ Hq').
    + simpl. split_and!; [done..|]. by apply disjoint_spans_raise.
Qed.

(** X1.  The urls a file yields are taken from spans of the text that do
    not overlap: each runs from a prefix occurrence to the end of the nearest
    suffix occurrence at or after it, and the next one starts at or after
    that end; they are emitted from left to right. *)
Theorem emitted_urls_do_not_overlap os_sep full_name rel text results :
  ∃ spans,
    scan_file os_sep full_name rel text results
      = Some (results ++
              (mkRecord full_name (replace_char os_sep "/" rel)
                 <$> (span_url text <$> spans))) ∧
    disjoint_spans text 0 spans.
Proof.
  destruct (scan_file_spec os_sep full_name rel text results)
    as (urls & Hrun & Hspec).
  destruct (spec_scan_disjoint _ _ _ Hspec) as (spans & -> & Hd).
  by exists spans.
Qed.

(** What a file yields does not depend on what was gathered before. *)
Lemma scan_file_acc os_sep full_name rel text results :
  ∃ recs,
    scan_file os_sep full_name rel text [] = Some recs ∧
    scan_file os_sep full_name rel text results = Some (results ++ recs) ∧
    ∀ r, r ∈ recs →
      repo r = full_name ∧ file r = replace_char os_sep "/" rel.
Proof.
  destruct (scan_file_spec os_sep full_name rel text []) as (urls & H0 & Hs0).
  destruct (scan_file_spec os_sep full_name rel text results)
    as (urls' & Hr & Hs).
  assert (urls' = urls) as -> by (by apply (spec_scan_det text 0)).
  eexists. split_and!; [exact H0 | exact Hr |].
  simpl. by intros r (u & -> & _)%list_elem_of_fmap.
Qed.

Lemma scan_files_concat os_sep full_name files results :
  ∃ per_file,
    scan_files os_sep full_name files results
      = Some (results ++ concat per_file) ∧
    Forall2 (λ f recs, scan_file os_sep full_name f.1 f.2 [] = Some recs)
      files per_file ∧
    ∀ r, r ∈ concat per_file → repo r = full_name.
Proof.
  revert results. induction files as [|[rel text] files IH]; intros results.
  - exists []. simpl. rewrite app_nil_r. split_and!; [done | constructor |].
    intros r []%elem_of_nil.
  - destruct (scan_file_acc os_sep full_name rel text results)
      as (recs & H0 & Hr & Hrecs).
    destruct (IH (results ++ recs)) as (per_file & Hrun & Hall & Hrepo).
    exists (recs :: per_file). simpl. rewrite Hr, Hrun, <- app_assoc.
    split_and!; [done | by constructor |].
    intros r [Hin|Hin]%elem_of_app; [by apply Hrecs | by apply Hrepo].
Qed.

(** X2.  The records of a repository are the records of its files, one file
    after the other in the order of the walk; what a file yields does not
    depend on the other files, and every record names the repository. *)
Theorem scan_repo_is_concatenation os_sep full_name files :
  ∃ per_file,
    scan_repo_for_figpack os_sep full_name files = Some (concat per_file) ∧
    Forall2 (λ f recs, scan_file os_sep full_name f.1 f.2 [] = Some recs)
      files per_file ∧
    ∀ r, r ∈ concat per_file → repo r = full_name.
Proof. apply (scan_files_concat os_sep full_name files []). Qed.

Lemma chars_append a b : chars (a +:+ b) = chars a ++ chars b.
Proof. induction a as [|c a IH]; simpl; [done | by rewrite IH]. Qed.

(** Replacing a character leaves none behind, unless the replacement
    brings it back. *)
Lemma replace_char_absent c by_ s :
  c ∉ chars by_ → c ∉ chars (replace_char c by_ s).
Proof.
  intros Hby. induction s as [|a s IH]; simpl; [apply not_elem_of_nil|].
  destruct (Ascii.eqb_spec a c) as [->|Hne].
  - rewrite chars_append. by apply not_elem_of_app.
  - simpl. apply not_elem_of_cons. split; [congruence | done].
Qed.

Lemma replace_char_same c s : replace_char c (String c "") s = s.
Proof.
  induction s as [|a s IH]; simpl; [done|].
  destruct (Ascii.eqb_spec a c) as [->|Hne]; simpl; by rewrite IH.
Qed.

(** X3.  The [file] field of every record of a file is its relative path
    with the separator of the host replaced by "/": it holds no host
    separator when that is not "/" itself (a backslash, say), and on a host
    whose separator is "/" it is the relative path unchanged. *)
Theorem file_field_uses_forward_slashes os_sep full_name rel text results :
  ∃ new,
    scan_file os_sep full_name rel text results = Some (results ++ new) ∧
    ∀ r, r ∈ new →
      file r = replace_char os_sep "/" rel ∧
      (os_sep ≠ "/"%char → os_sep ∉ chars (file r)) ∧
      (os_sep = "/"%char → file r = rel).
Proof.
  destruct (scan_file_acc os_sep full_name rel text results)
    as (recs & _ & Hr & Hrecs).
  exists recs. split; [done|]. intros r [_ ->]%Hrecs. split_and!; [done | |].
  - intros Hne. apply replace_char_absent. simpl.
    apply not_elem_of_cons. split; [done | apply not_elem_of_nil].
  - intros ->. apply replace_char_same.
Qed.

(** ** Further properties of the de-duplication *)

Lemma union_absorb `{Countable K} (k : K) (A B : gset K) :
  k ∈ B → {[k]} ∪ A ∪ B = A ∪ B.
Proof. set_solver. Qed.

Lemma union_shift `{Countable K} (k : K) (A B : gset K) :
  {[k]} ∪ A ∪ B = A ∪ ({[k]} ∪ B).
Proof. set_solver. Qed.

Lemma fresh_app seen l1 l2 :
  fresh seen (l1 ++ l2) = fresh seen l1 ++ fresh (keys_of l1 ∪ seen) l2.
Proof.
  unfold keys_of. revert seen. induction l1 as [|a l1 IH]; intros seen; simpl.
  - by rewrite (left_id_L ∅ (∪)).
  - case_decide as Ha.
    + rewrite IH. by rewrite union_absorb.
    + simpl. rewrite IH. by rewrite union_shift.
Qed.

Lemma fresh_seen seen l :
  (∀ r, r ∈ l → key r ∈ seen) → fresh seen l = [].
Proof.
  induction l as [|a l IH]; intros Hall; simpl; [done|].
  rewrite decide_True by (apply Hall, elem_of_cons; by left).
  apply IH. intros r Hr. apply Hall, elem_of_cons. by right.
Qed.

Lemma fresh_unseen seen l :
  NoDup (key <$> l) → (∀ r, r ∈ l → key r ∉ seen) → fresh seen l = l.
Proof.
  revert seen. induction l as [|a l IH]; intros seen Hnd Hall; simpl; [done|].
  apply NoDup_cons in Hnd as [Ha Hnd].
  rewrite decide_False by (apply Hall, elem_of_cons; by left).
  f_equal. apply IH; [done|]. intros r Hr Hin.
  apply elem_of_union in Hin as [Hin|Hin].
  - apply elem_of_singleton in Hin. apply Ha. rewrite <- Hin.
    apply list_elem_of_fmap. by exists r.
  - apply (Hall r); [apply elem_of_cons; by right | done].
Qed.

(** X4.  De-duplicating twice changes nothing more, and a list without
    repeated triples is left as it is.  Over a concatenation, the records of
    the first part are settled first: the second part adds, in its order,
    only its records whose triple the first part lacks. *)
Theorem dedupe_idempotent (l l' : list MatchRecord) :
  dedupe (dedupe l) = dedupe l ∧
  (NoDup (key <$> l) → dedupe l = l) ∧
  dedupe (l ++ l') = dedupe l ++ fresh (keys_of l) l' ∧
  dedupe (l ++ l) = dedupe l.
Proof.
  unfold dedupe. rewrite !dedupe_loop_fresh. simpl.
  assert (∀ k, NoDup (key <$> k) → fresh ∅ k = k) as Hid.
  { intros k Hk. apply fresh_unseen; [done|]. intros r _.
    apply not_elem_of_empty. }
  split_and!.
  - apply Hid, fresh_NoDup.
  - intros Hnd. by apply Hid.
  - by rewrite fresh_app, (right_id_L ∅ (∪)).
  - rewrite fresh_app, (right_id_L ∅ (∪)), (fresh_seen (keys_of l) l);
      [by rewrite app_nil_r|].
    intros r Hr. unfold keys_of. apply elem_of_list_to_set, list_elem_of_fmap.
    by exists r.
Qed.

(** ** The aggregation stage *)

Lemma str_le_cons a x b y :
  str_le (String a x) (String b y) ↔
  (N_of_ascii a < N_of_ascii b)%N ∨ (a = b ∧ str_le x y).
Proof.
  unfold str_le, String.leb. simpl. unfold Ascii.compare.
  destruct (N.compare_spec (N_of_ascii a) (N_of_ascii b)) as [E|L|G].
  - apply (f_equal ascii_of_N) in E. rewrite !ascii_N_embedding in E.
    subst b.
    split; [by right | intros [?|[_ ?]]; [lia | done]].
  - split; [by left | done].
  - split; [done | intros [?|[-> _]]; lia].
Qed.

Global Instance str_le_trans : Transitive str_le.
Proof.
  intros x. induction x as [|a x IH]; intros y z Hxy Hyz.
  - by destruct z.
  - destruct y as [|b y]; [done|]. destruct z as [|c z]; [done|].
    apply str_le_cons in Hxy, Hyz. apply str_le_cons.
    destruct Hxy as [?|[-> ?]], Hyz as [?|[-> ?]];
      [left; lia | by left | by left | right].
    split; [done | by eapply IH].
Qed.

Global Instance str_le_total : Total str_le.
Proof. intros x y. apply String.leb_total. Qed.

Lemma elem_of_unique_repos items repos name :
  name ∈ unique_repos items repos ↔
  name ∈ repos ∨
  (name ≠ "" ∧ ∃ it, it ∈ items ∧ full_name_of it = Some name).
Proof.
  revert repos. induction items as [|it items IH]; intros repos; simpl.
  - split; [by left | intros [?|(_ & ? & []%elem_of_nil & _)]; done].
  - destruct (full_name_of it) as [fn|] eqn:E; simpl.
    + destruct (String.eqb_spec fn "") as [->|Hne]; simpl; rewrite IH.
      * split.
        -- intros [?|(? & it' & ? & ?)]; [by left|]. right. split; [done|].
           exists it'. split; [apply elem_of_cons; by right | done].
        -- intros [?|(? & it' & [->|?]%elem_of_cons & ?)]; [by left | |].
           ++ congruence.
           ++ right. split; [done|]. by exists it'.
      * rewrite elem_of_union, elem_of_singleton. split.
        -- intros [[->|?]|(? & it' & ? & ?)]; [| by left |].
           ++ right. split; [done|]. exists it.
              split; [apply elem_of_cons; by left | done].
           ++ right. split; [done|]. exists it'.
              split; [apply elem_of_cons; by right | done].
        -- intros [?|(? & it' & [->|?]%elem_of_cons & ?)].
           ++ left. by right.
           ++ left. left. congruence.
           ++ right. split; [done|]. by exists it'.
    + rewrite IH. split.
      * intros [?|(? & it' & ? & ?)]; [by left|]. right. split; [done|].
        exists it'. split; [apply elem_of_cons; by right | done].
      * intros [?|(? & it' & [->|?]%elem_of_cons & ?)]; [by left | |].
        -- congruence.
        -- right. split; [done|]. by exists it'.
Qed.

(** X5.  The repository list of the aggregation stage is in ascending
    order, holds no name twice, and holds exactly the names that some hit
    carries and that are not empty: hits without a repository name are
    passed over. *)
Theorem collect_unique_repos_sorted_set (items : list SearchHit) :
  StronglySorted str_le (collect_unique_repos items) ∧
  NoDup (collect_unique_repos items) ∧
  ∀ name, name ∈ collect_unique_repos items ↔
          name ≠ "" ∧ ∃ it, it ∈ items ∧ full_name_of it = Some name.
Proof.
  unfold collect_unique_repos. split_and!.
  - apply StronglySorted_merge_sort; apply _.
  - rewrite merge_sort_Permutation. apply NoDup_elements.
  - intros name. rewrite merge_sort_Permutation, elem_of_elements.
    rewrite elem_of_unique_repos. split; [|by right].
    intros [[]%not_elem_of_empty|?]. done.
Qed.

(** ** Clone directories *)

Lemma string_append_assoc (a b c : string) :
  a +:+ (b +:+ c) = (a +:+ b) +:+ c.
Proof.
  induction a as [|x a IH]; [done|].
  change (String x (a +:+ (b +:+ c)) = String x ((a +:+ b) +:+ c)).
  by rewrite IH.
Qed.

Lemma replace_char_append c by_ a b :
  replace_char c by_ (a +:+ b)
  = replace_char c by_ a +:+ replace_char c by_ b.
Proof.
  induction a as [|x a IH]; [done|].
  change (String x a +:+ b) with (String x (a +:+ b)).
  cbn [replace_char]. rewrite IH.
  destruct (Ascii.eqb x c); [|done]. apply string_append_assoc.
Qed.

Lemma replace_char_none c by_ s :
  c ∉ chars s → replace_char c by_ s = s.
Proof.
  induction s as [|a s IH]; simpl; [done|].
  intros [Ha Hs]%not_elem_of_cons.
  destruct (Ascii.eqb_spec a c); [congruence|]. by rewrite IH.
Qed.

Lemma append_inj_r (p a b : string) : p +:+ a = p +:+ b → a = b.
Proof. apply (inj (String.append p)). Qed.

(** Two strings split at the first occurrence of a character agree part
    by part. *)
Lemma split_at_first c a1 r1 a2 r2 :
  c ∉ chars a1 → c ∉ chars a2 →
  a1 +:+ String c r1 = a2 +:+ String c r2 → a1 = a2 ∧ r1 = r2.
Proof.
  revert a2. induction a1 as [|x a1 IH]; intros [|y a2]; simpl.
  - by intros _ _ [= ->].
  - intros _ [Hy _]%not_elem_of_cons [= -> _]. done.
  - intros [Hx _]%not_elem_of_cons _ [= -> _]. done.
  - intros [_ H1]%not_elem_of_cons [_ H2]%not_elem_of_cons [= -> E].
    destruct (IH a2 H1 H2 E) as [-> ->]. done.
Qed.

(** X6.  The directory of a repository is a direct child of the work
    directory: the component appended to it holds no "/".  Identifiers
    [owner/name] whose owner holds neither "/" nor "_" and whose name holds
    no "/" are cloned into "owner__name", and two of them share a directory
    only when they are the same identifier. *)
Theorem hosted_names_get_their_own_directory
    workdir owner1 name1 owner2 name2 :
  hosted_name owner1 name1 → hosted_name owner2 name2 →
  ("/"%char ∉ chars (replace_char "/" "__" (owner1 +:+ "/" +:+ name1))) ∧
  target_of workdir (owner1 +:+ "/" +:+ name1)
    = workdir +:+ "/" +:+ owner1 +:+ "__" +:+ name1 ∧
  (target_of workdir (owner1 +:+ "/" +:+ name1)
     = target_of workdir (owner2 +:+ "/" +:+ name2) →
   owner1 = owner2 ∧ name1 = name2).
Proof.
  intros (Ho1 & Hu1 & Hn1) (Ho2 & Hu2 & Hn2).
  assert (∀ owner name, "/"%char ∉ chars owner → "/"%char ∉ chars name →
    replace_char "/" "__" (owner +:+ "/" +:+ name)
    = owner +:+ "__" +:+ name) as Hrep.
  { intros owner name Ho Hn. rewrite replace_char_append.
    rewrite (replace_char_none _ _ owner) by done.
    change ("/" +:+ name) with (String "/" name). cbn [replace_char].
    change (Ascii.eqb "/" "/") with true. cbv iota.
    by rewrite (replace_char_none _ _ name). }
  split_and!.
  - apply replace_char_absent. simpl.
    rewrite !not_elem_of_cons. split_and!; [done.. | apply not_elem_of_nil].
  - unfold target_of, path_join. by rewrite Hrep.
  - unfold target_of, path_join. rewrite !Hrep by done.
    intros E%append_inj_r%append_inj_r.
    destruct (split_at_first "_" owner1 (String "_" name1)
                owner2 (String "_" name2) Hu1 Hu2 E) as [-> E'].
    by injection E' as ->.
Qed.

(** The theorem at two repositories of one owner. *)
Lemma hosted_names_example :
  target_of "./_repos" ("octo" +:+ "/" +:+ "a_b")
  = "./_repos" +:+ "/" +:+ "octo" +:+ "__" +:+ "a_b".
Proof.
  assert (hosted_name "octo" "a_b") as H1.
  { unfold hosted_name. simpl. rewrite !not_elem_of_cons.
    split_and!; try done; apply not_elem_of_nil. }
  assert (hosted_name "octo" "a__b") as H2.
  { unfold hosted_name. simpl. rewrite !not_elem_of_cons.
    split_and!; try done; apply not_elem_of_nil. }
  exact (proj1 (proj2 (hosted_names_get_their_own_directory
                         "./_repos" "octo" "a_b" "octo" "a__b" H1 H2))).
Defined.

(** ** What the acquisition reports *)

Lemma elem_of_dict_set k v d k' v' :
  (k', v') ∈ dict_set k v d → (k', v') = (k, v) ∨ (k', v') ∈ d.
Proof.
  induction d as [|[k0 v0] d IH]; simpl.
  - intros ->%list_elem_of_singleton. by left.
  - case_decide as Hk.
    + intros [->|?]%elem_of_cons; [by left|]. right.
      apply elem_of_cons. by right.
    + intros [->|[?|?]%IH]%elem_of_cons.
      * right. apply elem_of_cons. by left.
      * by left.
      * right. apply elem_of_cons. by right.
Qed.

Lemma dict_set_keys k v d :
  NoDup d.*1 → NoDup (dict_set k v d).*1.
Proof.
  induction d as [|[k0 v0] d IH]; simpl.
  - intros _. apply NoDup_singleton.
  - intros [Hk0 Hd]%NoDup_cons. case_decide as Hk; simpl.
    + subst. by apply NoDup_cons.
    + apply NoDup_cons. split; [|by apply IH].
      intros ([k1 v1] & E & Hin)%list_elem_of_fmap. simpl in E. subst k1.
      apply elem_of_dict_set in Hin as [[= ? ?]|Hin]; [done|].
      apply Hk0, list_elem_of_fmap. by exists (k0, v1).
Qed.

Lemma acquire_entries git workdir repos cr d :
  NoDup cr.*1 →
  let run := acquire git workdir repos cr d in
  NoDup run.1.*1 ∧
  ∀ name dir, (name, dir) ∈ run.1 →
    (name, dir) ∈ cr ∨
    (name ∈ repos ∧ dir = target_of workdir name ∧ dir ∈ paths run.2).
Proof.
  revert cr d. induction repos as [|h rest IH]; intros cr d Hnd; simpl.
  { split; [done|]. intros name dir ?. by left. }
  pose proof (acquire_paths_mono workdir git rest) as Hmono.
  destruct (clone_repo_cases workdir git h d)
    as [(Hp & ->)|[(Hp & Hg & ->)|(Hp & Hg & ->)]].
  - destruct (IH (dict_set h (target_of workdir h) cr) d) as [Hk Hin];
      [by apply dict_set_keys|].
    split; [done|]. intros name dir [Hc|(? & ? & ?)]%Hin.
    + apply elem_of_dict_set in Hc as [[= -> ->]|?]; [|by left].
      right. split_and!; [apply elem_of_cons; by left | done |].
      by apply Hmono.
    + right. split_and!; [apply elem_of_cons; by right | done..].
  - destruct (IH (dict_set h (target_of workdir h) cr)
                (mkDisk ({[target_of workdir h]} ∪ ({[workdir]} ∪ paths d))
                   (git_calls d
                    ++ [(GITHUB_WEB_CLONE_URL h, target_of workdir h)])))
      as [Hk Hin]; [by apply dict_set_keys|].
    split; [done|]. intros name dir [Hc|(? & ? & ?)]%Hin.
    + apply elem_of_dict_set in Hc as [[= -> ->]|?]; [|by left].
      right. split_and!; [apply elem_of_cons; by left | done |].
      apply Hmono. simpl. set_solver.
    + right. split_and!; [apply elem_of_cons; by right | done..].
  - destruct (IH cr (mkDisk ({[workdir]} ∪ paths d)
                       (git_calls d
                        ++ [(GITHUB_WEB_CLONE_URL h, target_of workdir h)])))
      as [Hk Hin]; [done|].
    split; [done|]. intros name dir [Hc|(? & ? & ?)]%Hin; [by left|].
    right. split_and!; [apply elem_of_cons; by right | done..].
Qed.

(** X7.  What the acquisition hands to the scan is truthful: every entry of
    [clone_results] names a repository of the list, with the directory
    computed for it, and that directory exists when the stage ends; no
    repository is entered twice. *)
Theorem clone_results_are_on_disk git workdir repos d :
  let run := acquire git workdir repos [] d in
  NoDup run.1.*1 ∧
  ∀ name dir, (name, dir) ∈ run.1 →
    name ∈ repos ∧ dir = target_of workdir name ∧ dir ∈ paths run.2.
Proof.
  intros run.
  destruct (acquire_entries git workdir repos [] d) as [Hk Hin];
    [constructor|].
  split; [done|]. intros name dir [[]%elem_of_nil|?]%Hin. done.
Qed.

(** ** What the search asks of the endpoint *)

Lemma slept_app tr tr' : slept (tr ++ tr') = slept tr ++ slept tr'.
Proof. apply omap_app. Qed.

(** One evaluation of the first half of the loop body asks for its page
    once or twice and sleeps at most once, for a second at least. *)
Lemma fetch_page_events server page w :
  ∃ ev,
    trace (fetch_page server page w).2 = trace w ++ ev ∧
    (requested ev = [page] ∨ requested ev = [page; page]) ∧
    (slept ev = [] ∨ ∃ secs, slept ev = [secs] ∧ 1 ≤ secs) ∧
    now w ≤ now (fetch_page server page w).2.
Proof.
  destruct (fetch_page_cases server page w)
    as [(_ & ->)|[(_ & _ & ->)|[(_ & _ & ts & _ & _ & ->)
                               |(_ & _ & _ & e & _ & ->)]]];
    simpl.
  - exists [Get page]. split_and!; [done | by left | by left | lia].
  - exists [Get page; Get page]. split_and!; [done | by right | by left | lia].
  - exists [Get page; Sleep (Z.max 0 (ts - now w) + 1); Get page].
    split_and!; [done | by right | right | lia].
    eexists. split; [done | lia].
  - exists [Get page]. split_and!; [done | by left | by left | lia].
Qed.

Lemma search_pages_shape server pages per_page all_items w :
  let run := search_pages server pages per_page all_items w in
  ∃ later,
    trace run.2 = trace w ++ later ∧
    request_shape pages (requested later) ∧
    Forall (λ secs, 1 ≤ secs) (slept later) ∧
    (length (slept later) ≤ length pages)%nat ∧
    now w ≤ now run.2.
Proof.
  revert all_items w. induction pages as [|page rest IH]; intros all_items w.
  { exists []. simpl. rewrite app_nil_r.
    split_and!; [done | constructor | constructor | done | lia]. }
  cbv zeta. rewrite search_pages_cons. unfold mbind, M_bind.
  destruct (fetch_page_events server page w) as (ev & Hev & Hreq & Hsl & Hnow).
  assert (request_shape (page :: rest) (requested ev)) as Hshape0.
  { destruct Hreq as [-> | ->];
      [apply shape_once | apply shape_twice]; apply shape_stop. }
  assert (Forall (λ secs, 1 ≤ secs) (slept ev) ∧
          (length (slept ev) ≤ 1)%nat) as [Hsl1 Hsl2].
  { destruct Hsl as [-> |(secs & -> & ?)]; simpl;
      split; repeat constructor; done. }
  destruct (fetch_page server page w) as [[resp|e] w1] eqn:Hfetch; simpl in *.
  2: { exists ev. split_and!; [done | done | done | lia | done]. }
  destruct (after_fetch_cases server rest per_page all_items resp w1)
    as [(_ & ->)|[(_ & _ & ->)|[(_ & _ & _ & ->)|(_ & _ & _ & ->)]]];
    simpl.
  1-3: exists ev; split_and!; [done | done | done | lia | done].
  destruct (IH (all_items ++ default [] (json_items resp)) w1)
    as (later & Hl & Hshape & Hs1 & Hs2 & Hn).
  exists (ev ++ later). rewrite Hl, Hev, app_assoc.
  rewrite requested_app, slept_app, length_app.
  split_and!; [done | | by apply Forall_app | lia | lia].
  destruct Hreq as [-> | ->]; simpl;
    [by apply shape_once | by apply shape_twice].
Qed.

Lemma request_shape_elem pages reqs p :
  request_shape pages reqs → p ∈ reqs → p ∈ pages.
Proof.
  induction 1 as [pages|page rest reqs _ IH|page rest reqs _ IH].
  - intros []%elem_of_nil.
  - intros [->|?]%elem_of_cons; apply elem_of_cons; [by left | right; auto].
  - intros [->|[->|?]%elem_of_cons]%elem_of_cons; apply elem_of_cons;
      [by left | by left | right; auto].
Qed.

Lemma request_shape_length pages reqs :
  request_shape pages reqs → (length reqs ≤ 2 * length pages)%nat.
Proof. induction 1; simpl; lia. Qed.

Lemma filter_absent (p : Z) (reqs : list Z) :
  p ∉ reqs → filter (λ q, q = p) reqs = [].
Proof.
  induction reqs as [|q reqs IH]; [done|].
  intros [Hq Hr]%not_elem_of_cons.
  rewrite filter_cons, decide_False by congruence. by apply IH.
Qed.

Lemma request_shape_count pages reqs p :
  NoDup pages → request_shape pages reqs →
  (length (filter (λ q, q = p) reqs) ≤ 2)%nat.
Proof.
  intros Hnd Hshape. revert Hnd.
  induction Hshape as [pages|page rest reqs Hs IH|page rest reqs Hs IH];
    intros Hnd; [simpl; lia| |];
    apply NoDup_cons in Hnd as [Hpage Hnd]; specialize (IH Hnd).
  - rewrite filter_cons. case_decide as E; [subst page|done]. simpl.
    rewrite filter_absent; [simpl; lia|].
    intros Hq. by apply Hpage, (request_shape_elem _ reqs).
  - rewrite !filter_cons. case_decide as E; [subst page|done]. simpl.
    rewrite filter_absent; [simpl; lia|].
    intros Hq. by apply Hpage, (request_shape_elem _ reqs).
Qed.

Lemma request_shape_sorted pages reqs :
  StronglySorted Z.lt pages → request_shape pages reqs →
  StronglySorted Z.le reqs.
Proof.
  intros Hs Hshape. revert Hs.
  induction Hshape as [pages|page rest reqs Hsh IH|page rest reqs Hsh IH];
    intros Hs; [constructor| |];
    apply StronglySorted_inv in Hs as [Hs Hlt];
    assert (Forall (Z.le page) reqs) as Hle
      by (apply Forall_forall; intros q Hq;
          apply (request_shape_elem _ _ _ Hsh) in Hq;
          rewrite Forall_forall in Hlt; specialize (Hlt q Hq); lia).
  - constructor; auto.
  - constructor; [constructor; auto|]. constructor; [lia | done].
Qed.

Lemma attempts_filter tr p :
  attempts tr p = length (filter (λ q, q = p) (requested tr)).
Proof.
  unfold attempts. induction tr as [|ev tr IH]; [done|].
  rewrite filter_cons. destruct ev as [q|s].
  - change (requested (Get q :: tr)) with (q :: requested tr).
    rewrite filter_cons. destruct (decide (q = p)) as [->|Hne].
    + rewrite decide_True by done. simpl. by rewrite IH.
    + rewrite decide_False by congruence. done.
  - change (requested (Sleep s :: tr)) with (requested tr).
    rewrite decide_False by done. done.
Qed.

Lemma py_range_sorted a b : StronglySorted Z.lt (py_range a b).
Proof.
  unfold py_range. generalize (Z.to_nat (b - a)) as n. intros n.
  generalize 0%nat as k. induction n as [|n IH]; intros k; simpl.
  - constructor.
  - constructor; [apply IH|].
    apply Forall_forall. intros q (i & -> & Hi%elem_of_seq)%list_elem_of_fmap.
    lia.
Qed.

Lemma elem_of_py_range a b p : p ∈ py_range a b → a ≤ p < b.
Proof.
  unfold py_range. intros (i & -> & Hi%elem_of_seq)%list_elem_of_fmap. lia.
Qed.

(** X8.  Whatever the endpoint answers, a search asks only for pages from 1
    to [max_pages], in ascending order, each at most twice, so it makes at
    most [2 * max_pages] requests; it sleeps at most once a page, each time
    for a second at least, and the clock never runs back.  With
    [max_pages <= 0] it asks nothing and returns no item. *)
Theorem search_requests_are_bounded server max_pages per_page t m :
  let run := search_code server max_pages per_page (mkWorld t m []) in
  let reqs := requested (trace run.2) in
  (∀ p, p ∈ reqs → 1 ≤ p ≤ max_pages) ∧
  StronglySorted Z.le reqs ∧
  (∀ p, (attempts (trace run.2) p ≤ 2)%nat) ∧
  Z.of_nat (length reqs) ≤ 2 * Z.max 0 max_pages ∧
  Forall (λ secs, 1 ≤ secs) (slept (trace run.2)) ∧
  Z.of_nat (length (slept (trace run.2))) ≤ Z.max 0 max_pages ∧
  t ≤ now run.2 ∧
  (max_pages ≤ 0 → run = (Ok [], mkWorld t m [])).
Proof.
  intros run reqs. subst reqs run. unfold search_code.
  destruct (search_pages_shape server (py_range 1 (max_pages + 1)) per_page []
              (mkWorld t m [])) as (later & Htr & Hshape & Hs1 & Hs2 & Hnow).
  simpl in Htr, Hnow. rewrite Htr.
  assert (length (py_range 1 (max_pages + 1)) = Z.to_nat max_pages) as Hlen.
  { unfold py_range. rewrite length_fmap, length_seq. lia. }
  split_and!.
  - intros p Hp%(request_shape_elem _ _ _ Hshape)%elem_of_py_range. lia.
  - eapply request_shape_sorted; [apply py_range_sorted | done].
  - intros p. rewrite attempts_filter.
    eapply request_shape_count; [apply py_range_NoDup | done].
  - apply request_shape_length in Hshape. lia.
  - done.
  - lia.
  - done.
  - intros Hle. unfold py_range.
    by replace (Z.to_nat (max_pages + 1 - 1)) with 0%nat by lia.
Qed.

(** X9.  The handler by itself.  On a response that is not a 403, or that
    fails the header test, it does nothing.  It never makes a request.  When
    it returns after a sleep it has slept once, for a second at least and
    for a length that [time.sleep] serves, and the clock is then past the
    reset time.  When it raises, the world is as it was: it raises
    [ValueError] when [int] rejects the reset header or the wait has more
    than 4300 digits, [OverflowError] when the wait is longer than
    9223372036 seconds, and [OSError] when the deadline of the sleep lies
    beyond the range of the monotonic clock. *)
Theorem handler_wakes_after_reset resp w :
  let run := handle_rate_limit resp w in
  let wait ts := Z.max 0 (ts - now w) + 1 in
  (status_code resp ≠ 403 → run = (Ok (), w)) ∧
  requested (trace run.2) = requested (trace w) ∧
  ((run = (Ok (), w) ∧
    (status_code resp ≠ 403 ∨ rate_limited resp = false)) ∨
   (status_code resp = 403 ∧ rate_limited resp = true ∧
    ((∃ ts, reset_ts resp = Some ts ∧ sleepable w (wait ts) ∧
            run = (Ok (), asleep w (wait ts)) ∧
            1 ≤ wait ts ∧ ts < now run.2) ∨
     (run = (Raise ValueError, w) ∧
      (reset_ts resp = None ∨
       ∃ ts, reset_ts resp = Some ts ∧ PyInt.STR_BOUND ≤ wait ts)) ∨
     (run = (Raise OverflowError, w) ∧
      ∃ ts, reset_ts resp = Some ts ∧
            9223372036 < wait ts < PyInt.STR_BOUND) ∨
     (run = (Raise OSError, w) ∧
      ∃ ts, reset_ts resp = Some ts ∧ wait ts ≤ 9223372036 ∧
            9223372036854775807 < monotonic w + wait ts * 1000000000)))).
Proof.
  intros run wait. unfold run.
  destruct (decide (status_code resp = 403)) as [Hs|Hs].
  2: { assert (handle_rate_limit resp w = (Ok (), w)) as ->.
       { unfold handle_rate_limit. by rewrite bool_decide_true. }
       split_and!; [done | done |]. left. split; [done | by left]. }
  split; [done|].
  destruct (rate_limited resp) eqn:Hl.
  2: { rewrite handle_not_limited by done. split; [done|].
       left. split; [done | by right]. }
  destruct (reset_ts resp) as [ts|] eqn:Hts.
  2: { rewrite handle_unreadable by done. split; [done|].
       right. split_and!; [done..|]. right. left. split; [done | by left]. }
  destruct (decide (sleepable w (wait ts))) as [Hsl|Hsl].
  { rewrite (handle_limited _ _ ts) by done. simpl.
    rewrite requested_app. simpl. rewrite app_nil_r. split; [done|].
    right. split_and!; [done..|]. left. exists ts.
    split_and!; [done | done | done | |]; unfold wait; lia. }
  rewrite (handle_unsleepable _ _ ts) by done. simpl. split; [done|].
  right. split_and!; [done..|]. right. fold (wait ts).
  assert (1 ≤ wait ts) as Hpos by (unfold wait; lia).
  unfold PyInt.printable.
  destruct (Z.ltb_spec (Z.abs (wait ts)) PyInt.STR_BOUND) as [Hp|Hp]; simpl.
  - right. case_bool_decide as Hbig.
    + left. split; [done|]. exists ts. split; [done|]. lia.
    + right. split; [done|]. exists ts. split; [done|]. split; [lia|].
      unfold sleepable in Hsl. lia.
  - left. split; [done|]. right. exists ts. split; [done|]. lia.
Qed.

(** ** The pipeline from end to end *)





(** ** Reading a Markdown file *)

Section Newlines.

Import Decode.

Lemma universal_newlines_facts n : ∀ text,
  (length text ≤ n)%nat →
  (length (universal_newlines text) ≤ length text)%nat ∧
  (13%N ∉ universal_newlines text) ∧
  (universal_newlines text = [] → text = []) ∧
  (13%N ∉ text → universal_newlines text = text).
Proof.
  induction n as [|n IH]; intros text Hn.
  { destruct text; [|simpl in Hn; lia]. simpl.
    split_and!; [done | apply not_elem_of_nil | done | done]. }
  destruct text as [|c rest]; simpl.
  { split_and!; [done | apply not_elem_of_nil | done | done]. }
  simpl in Hn. destruct (N.eqb_spec c 13) as [->|Hc].
  - destruct rest as [|c' rest'].
    + split_and!; [simpl; lia | | done |].
      * apply not_elem_of_cons. split; [done | apply not_elem_of_nil].
      * intros []%not_elem_of_cons. done.
    + destruct (N.eqb_spec c' 10) as [->|Hc'].
      * destruct (IH rest' ltac:(simpl in Hn; lia)) as (Hl & Hcr & _ & _).
        split_and!; [simpl; lia | | done |].
        -- apply not_elem_of_cons. split; done.
        -- intros []%not_elem_of_cons. done.
      * destruct (IH (c' :: rest') ltac:(lia)) as (Hl & Hcr & _ & _).
        split_and!; [simpl in *; lia | | done |].
        -- apply not_elem_of_cons. split; done.
        -- intros []%not_elem_of_cons. done.
  - destruct (IH rest ltac:(lia)) as (Hl & Hcr & _ & Hid).
    split_and!; [simpl; lia | | done |].
    + apply not_elem_of_cons. split; [done | done].
    + intros [_ Hr]%not_elem_of_cons. by rewrite Hid.
Qed.

Lemma utf8_facts n : ∀ bytes text,
  (length bytes ≤ n)%nat → utf8 bytes = Some text →
  (length text ≤ length bytes)%nat ∧ (text = [] → bytes = []).
Proof.
  induction n as [|n IH]; intros bytes text Hn.
  { destruct bytes; [|simpl in Hn; lia]. simpl. by intros [= <-]. }
  destruct bytes as [|b0 rest]; [simpl; by intros [= <-]|].
  simpl in Hn. cbn [utf8].
  assert (∀ c tail t,
    (length tail < length (b0 :: rest))%nat → (length tail ≤ n)%nat →
    cons c <$> utf8 tail = Some t →
    (length t ≤ length (b0 :: rest))%nat ∧ (t = [] → b0 :: rest = [])) as Hstep.
  { intros c tail t Hlt Hle Ht.
    destruct (utf8 tail) as [t'|] eqn:E; [|done]. simpl in Ht.
    injection Ht as <-. destruct (IH tail t' Hle E) as [Hl _].
    split; [simpl in *; lia | done]. }
  destruct (b0 <? 128)%N.
  { apply Hstep; simpl; lia. }
  destruct ((194 <=? b0) && (b0 <=? 223))%N.
  { destruct rest as [|b1 rest1]; [done|]. destruct (is_cont b1); [|done].
    apply Hstep; simpl in *; lia. }
  destruct ((224 <=? b0) && (b0 <=? 239))%N.
  { destruct rest as [|b1 [|b2 rest2]]; [done..|].
    destruct (second_of_3 b0 b1 && is_cont b2); [|done].
    apply Hstep; simpl in *; lia. }
  destruct ((240 <=? b0) && (b0 <=? 244))%N; [|done].
  destruct rest as [|b1 [|b2 [|b3 rest3]]]; [done..|].
  destruct (second_of_4 b0 b1 && is_cont b2 && is_cont b3); [|done].
  apply Hstep; simpl in *; lia.
Qed.

Lemma utf8_ascii bytes :
  Forall (λ b, (b < 128)%N) bytes → utf8 bytes = Some bytes.
Proof.
  induction 1 as [|b bytes Hb _ IH]; [done|]. cbn [utf8].
  apply N.ltb_lt in Hb. rewrite Hb, IH. done.
Qed.

End Newlines.

(** X11.  [read_text_file] returns the empty string, which makes the scan
    pass over the file, exactly when the file cannot be read or holds no
    byte; the text it returns holds no carriage return and is no longer
    than the file. *)
Theorem read_text_file_empty_only_for_empty_files content :
  (read_text_file content = [] ↔ content = None ∨ content = Some []) ∧
  (13%N ∉ read_text_file content) ∧
  (∀ bytes, content = Some bytes →
     (length (read_text_file content) ≤ length bytes)%nat).
Proof.
  destruct content as [bytes|]; simpl.
  2: { split_and!; [split; [by left | done] | apply not_elem_of_nil | done]. }
  destruct (Decode.utf8 (Decode.code <$> bytes)) as [text|] eqn:E.
  - destruct (utf8_facts _ _ _ (le_n _) E) as [Hlen Hnil].
    destruct (universal_newlines_facts _ text (le_n _)) as (Hl & Hcr & He & _).
    rewrite length_fmap in Hlen. split_and!; [split | done |].
    + intros ->%He. right. f_equal. specialize (Hnil eq_refl).
      by destruct bytes.
    + intros [?|[= ->]]; [done|]. simpl in E. by injection E as <-.
    + intros ? [= <-]. lia.
  - destruct (universal_newlines_facts _ (Decode.latin1 bytes) (le_n _))
      as (Hl & Hcr & He & _).
    unfold Decode.latin1 in *. rewrite length_fmap in Hl.
    split_and!; [split | done |].
    + intros ?%He. right. f_equal. by destruct bytes.
    + intros [?|[= ->]]; [done|]. done.
    + intros ? [= <-]. lia.
Qed.

(** X12.  On a file whose bytes are all below 128 the two decodings agree:
    the text is the bytes themselves as code points, with line ends
    normalised, and it is exactly the bytes when the file holds no carriage
    return. *)
Theorem read_text_file_on_ascii bytes :
  Forall (λ b, (Decode.code b < 128)%N) bytes →
  read_text_file (Some bytes)
    = Decode.universal_newlines (Decode.latin1 bytes) ∧
  (13%N ∉ Decode.latin1 bytes →
   read_text_file (Some bytes) = Decode.latin1 bytes).
Proof.
  intros Hascii. unfold read_text_file, Decode.latin1.
  rewrite utf8_ascii by (by apply Forall_fmap). split; [done|].
  intros Hcr.
  by destruct (universal_newlines_facts _ (Decode.code <$> bytes) (le_n _))
    as (_ & _ & _ & ->).
Qed.

(** The theorem on the four bytes of a, carriage return, line feed, b. *)
Lemma read_text_file_crlf :
  read_text_file (Some [Byte.x61; Byte.x0d; Byte.x0a; Byte.x62])
  = [97; 10; 98]%N.
Proof.
  rewrite (proj1 (read_text_file_on_ascii
                    [Byte.x61; Byte.x0d; Byte.x0a; Byte.x62]
                    ltac:(repeat constructor))).
  reflexivity.
Defined.

(** ** No url is missed *)

(** The spans of the specification's algorithm cover every prefix
    occurrence, from the cursor on, that has a suffix occurrence at or after
    it. *)
Lemma spec_scan_covers text c urls :
  spec_scan text c urls →
  ∃ spans,
    urls = span_url text <$> spans ∧
    disjoint_spans text c spans ∧
    ∀ p q, c ≤ p → occurs_at FIGPACK_PREFIX text p →
           p ≤ q → occurs_at FIGPACK_SUFFIX text q →
           ∃ s e, (s, e) ∈ spans ∧ s ≤ p ≤ e.
Proof.
  induction 1 as [c Hn|c s urls Hp Hn H IH|c s e u urls Hp Hq Hu H IH].
  - exists []. split_and!; [done | done |].
    intros p q Hcp Hocc _ _. by destruct (Hn p Hcp).
  - destruct IH as (spans & -> & Hd & Hcov). exists spans.
    pose proof Hp as (Hcs & Hps & Hfirst).
    split_and!; [done | |].
    + apply (disjoint_spans_lower _ _ (s + 1)); [lia | done].
    + intros p q Hcp Hocc Hpq Hsuf.
      destruct (Z.lt_trichotomy p s) as [Hlt|[->|Hgt]].
      * by destruct (Hfirst p ltac:(lia)).
      * by destruct (Hn q Hpq).
      * apply (Hcov p q); [lia | done..].
  - destruct IH as (spans & -> & Hd & Hcov). exists ((s, e) :: spans).
    pose proof Hp as (Hcs & Hps & Hfirst). pose proof Hq as (Hse & Hqe & _).
    split_and!.
    + simpl. f_equal. eapply substring_of_unique; [done|].
      unfold span_url. simpl. apply slice_substring.
      * pose proof (occurs_at_bounds _ _ _ Hps). rewrite len_suffix. lia.
      * by destruct (occurs_at_bounds _ _ _ Hqe).
    + simpl. split_and!; [done..|]. by apply disjoint_spans_raise.
    + intros p q Hcp Hocc Hpq Hsuf.
      destruct (Z.le_gt_cases p e) as [Hle|Hgt].
      * exists s, e. split; [apply elem_of_cons; by left|].
        destruct (Z.lt_ge_cases p s) as [Hlt|?]; [|lia].
        by destruct (Hfirst p ltac:(lia)).
      * destruct (Hcov p q ltac:(lia) Hocc Hpq Hsuf) as (s' & e' & ? & ?).
        exists s', e'. split; [apply elem_of_cons; by right | done].
Qed.

(** X13.  The scan of a file misses no url.  What it appends are the urls
    of spans of the text, each running from an occurrence of the prefix, at
    a position from 0 on, to the nearest occurrence of the suffix at or
    after it, one span after the other; and every occurrence of the prefix
    that has an occurrence of the suffix at or after it either starts one of
    these spans or lies inside one, between its start and the start of its
    closing suffix. *)
Theorem every_closed_prefix_is_inside_a_url
    os_sep full_name rel text results :
  ∃ spans,
    scan_file os_sep full_name rel text results
      = Some (results ++
              (mkRecord full_name (replace_char os_sep "/" rel)
                 <$> (span_url text <$> spans))) ∧
    disjoint_spans text 0 spans ∧
    ∀ p q, occurs_at FIGPACK_PREFIX text p →
           p ≤ q → occurs_at FIGPACK_SUFFIX text q →
           ∃ s e, (s, e) ∈ spans ∧ s ≤ p ≤ e.
Proof.
  destruct (scan_file_spec os_sep full_name rel text results)
    as (urls & Hrun & Hspec).
  destruct (spec_scan_covers _ _ _ Hspec) as (spans & -> & Hd & Hcov).
  exists spans. split_and!; [done | done |]. intros p q Hp Hpq Hq.
  apply (Hcov p q); [|done..]. by destruct (occurs_at_bounds _ _ _ Hp).
Qed.
